(** * Mixel: the sprite generator of [src/Mixel.ts]

    A shallow embedding of class [Sprite]: the structural grid [data] and
    the pixel buffer [imageData] are JavaScript arrays, modelled as finite
    maps from indices to values; numbers are IEEE-754 binary64 floats, which
    is what a JavaScript [number] is; every method of the class is a
    function on the object's state, written in the order of the source. *)

From Stdlib Require Import ZArith PrimFloat FloatOps SpecFloat FloatAxioms Uint63 String.
From stdpp Require Import gmap list.

Set Warnings "-inexact-float".
Local Open Scope nat_scope.

(** ** JavaScript values and the host's [Math] *)

(** An array slot or a variable of the program holds a number or
    [undefined] (the result of reading past the end of an array). *)
Inductive value :=
  | undefined
  | num (f : float).

(** [v === c] for a number [c]: IEEE equality, false on [undefined]. *)
Definition strict_eq (v : value) (c : float) : bool :=
  match v with
  | num f => PrimFloat.eqb f c
  | undefined => false
  end.

(** ToNumber: [undefined] used in arithmetic is NaN. *)
Definition to_number (v : value) : float :=
  match v with
  | num f => f
  | undefined => nan
  end.

(** A loop counter used in float arithmetic ([u / ulen]). *)
Definition of_nat (n : nat) : float := PrimFloat.of_uint63 (Uint63.of_Z (Z.of_nat n)).

Module Math.

Definition PI : float := 3.141592653589793%float.

Definition abs (x : float) : float := PrimFloat.abs x.

(** The integer below a finite float: a float is [(-1)^s * m * 2^e], and
    shifting by a negative [e] rounds towards minus infinity. *)
Definition floorZ (x : float) : option Z :=
  match Prim2SF x with
  | S754_zero _ => Some 0%Z
  | S754_finite s m e => Some (Z.shiftl (if s then Zneg m else Zpos m) e)
  | S754_infinity _ | S754_nan => None
  end.

Definition of_Z (z : Z) : float :=
  if (z <? 0)%Z then (- PrimFloat.of_uint63 (Uint63.of_Z (- z)))%float
  else PrimFloat.of_uint63 (Uint63.of_Z z).

(** [Math.floor]: a float with a non-negative exponent, a zero, an
    infinity and NaN are their own floor; below that the magnitude is
    under 2^53 and the integer converts exactly. *)
Definition floor (x : float) : float :=
  match Prim2SF x with
  | S754_finite _ _ e =>
      if (e <? 0)%Z then
        match floorZ x with Some z => of_Z z | None => x end
      else x
  | _ => x
  end.

(** [Math.round]: the nearest integer, ties towards plus infinity; an
    argument from -0.5 up to, and without, 0 rounds to -0. *)
Definition round (x : float) : float :=
  if PrimFloat.ltb x 0 && PrimFloat.leb (-0.5) x then neg_zero
  else
    let fl := floor x in
    if PrimFloat.ltb (x - fl)%float 0.5%float then fl else (fl + 1)%float.

(** [Math.min] and [Math.max]: NaN if an argument is NaN, and -0 is
    below +0. *)
Definition min (a b : float) : float :=
  if is_nan a || is_nan b then nan
  else if PrimFloat.ltb a b then a
  else if PrimFloat.ltb b a then b
  else if get_sign a then a else b.

Definition max (a b : float) : float :=
  if is_nan a || is_nan b then nan
  else if PrimFloat.ltb a b then b
  else if PrimFloat.ltb b a then a
  else if get_sign a then b else a.

End Math.

(** [i % 6] for the result [i] of [Math.floor]: the remainder has the sign
    of the dividend; NaN and the infinities give NaN, here [None]. A
    remainder of -0 is [0] here, which [switch] (it compares with [===])
    does not tell apart. *)
Definition rem6 (i : float) : option Z :=
  match Math.floorZ i with
  | Some z => Some (Z.rem z 6)
  | None => None
  end.

(** ** Arrays *)

(** A JavaScript array as the map from its indices to its elements. An
    index without an element reads as [undefined]; a write at any index
    adds the element, so the array grows as the source's arrays do. *)
Abbreviation array := (gmap nat value).

(** [a[i]] *)
Definition read (a : array) (i : nat) : value := default undefined (a !! i).

(** [a[i] = v] *)
Definition write (a : array) (i : nat) (v : value) : array := <[i := v]> a.

(** The largest length of an array, 2^32 - 1. A key from that number on
    is a property like any other: it can be written and read, and the
    length does not count it. *)
Definition max_array_length : Z := 4294967295.

(** [a.length]: one more than the largest array index in use. *)
Definition array_length (a : array) : nat :=
  max_list (S <$> filter (λ k, (Z.of_nat k < max_array_length)%Z)
                         (elements (dom a))).

(** [for (let i = 0; i < n; i++) body(i)] on a state. *)
Fixpoint for_loop {St : Type} (n : nat) (body : nat → St → St) (s : St) : St :=
  match n with
  | 0 => s
  | S k => body k (for_loop k body s)
  end.

(** [.fill(v)] on the [n] holes that [Array(n)] returned. *)
Definition Array_fill (n : nat) (v : value) : array :=
  for_loop n (fun i a => write a i v) ∅.

(** ** Outcome of code that may throw *)

Inductive Error :=
  | TypeError (msg : string)
  | RangeError (msg : string).

Inductive Outcome (A : Type) :=
  | Completed (a : A)
  | Threw (e : Error).
Arguments Completed {A} a.
Arguments Threw {A} e.

#[export] Instance Outcome_ret : MRet Outcome := fun _ a => Completed a.

#[export] Instance Outcome_bind : MBind Outcome := fun _ _ k m =>
  match m with
  | Completed a => k a
  | Threw e => Threw e
  end.

(** [Array(n)] for a whole number [n]: an array of [n] holes, which has no
    element yet and of which [fill] needs the length only; a length above
    the largest is a RangeError. *)
Definition Array (n : nat) : Outcome nat :=
  if (Z.of_nat n <=? max_array_length)%Z then Completed n
  else Threw (RangeError "Invalid array length").

(** The loop again, for a body that may throw. *)
Fixpoint for_loopM {St : Type} (n : nat) (body : nat → St → Outcome St) (s : St)
  : Outcome St :=
  match n with
  | 0 => Completed s
  | S k => for_loopM k body s ≫= body k
  end.

(** ** The data model *)

Module SpriteStructure.
Definition AlwaysBorder : float := (-1)%float.
Definition Empty : float := 0%float.
Definition RandomlyEmptyBody : float := 1%float.
Definition RandomlyBorderBody : float := 2%float.
Definition AB := AlwaysBorder.
Definition EP := Empty.
Definition EB := RandomlyEmptyBody.
Definition BB := RandomlyBorderBody.
End SpriteStructure.
Import SpriteStructure.

(** [width] and [height] count pixels, so they are natural numbers: this
    development covers the masks whose dimensions are whole numbers, and a
    mask with a fractional dimension, which the type [number] admits, is
    outside it. A mirror flag left out is [false]. *)
Module Mask.
Record t := {
  data : list float;
  width : nat;
  height : nat;
  mirrorX : bool;
  mirrorY : bool
}.
End Mask.
Abbreviation Mask := Mask.t.

Record RGB := { r : float; g : float; b : float }.

(** Every option may be left out (a field that is [None]). [tint] has the
    three factors of an [RGB]; a callback of the caller is a function of
    the coordinates. *)
Record SpriteOptions := {
  colored : option bool;
  edgeBrightness : option float;
  colorVariations : option float;
  brightnessNoise : option float;
  saturation : option float;
  seed : option string;
  tint : option RGB;
  randomSampleCallback : option (nat → nat → value)
}.

(** The constructor's [defaults]. The default [randomSampleCallback] is a
    closure over the object under construction: it is [defaultSample]
    below, in force when the field stays [None]. *)
Definition defaults : SpriteOptions := {|
  colored := Some false;
  edgeBrightness := Some 0.3%float;
  colorVariations := Some 0.2%float;
  brightnessNoise := Some 0.3%float;
  saturation := Some 0.5%float;
  seed := None;
  tint := None;
  randomSampleCallback := None
|}.

(** [merge({}, defaults, opts)]: a field that [opts] defines wins. *)
Definition merge (d o : SpriteOptions) : SpriteOptions := {|
  colored := colored o ∪ colored d;
  edgeBrightness := edgeBrightness o ∪ edgeBrightness d;
  colorVariations := colorVariations o ∪ colorVariations d;
  brightnessNoise := brightnessNoise o ∪ brightnessNoise d;
  saturation := saturation o ∪ saturation d;
  seed := seed o ∪ seed d;
  tint := tint o ∪ tint d;
  randomSampleCallback := randomSampleCallback o ∪ randomSampleCallback d
|}.

(** A numeric option read in arithmetic; a truthiness test of [colored]. *)
Definition number (o : option float) : float := default nan o.
Definition truthy (o : option bool) : bool := default false o.

(** The generator [SeedRandom(seed)] returned: the stream it was seeded
    with and how many numbers have been drawn from it. *)
Record RandomSource := { stream : nat → float; drawn : nat }.

Record Sprite := {
  mask : Mask;
  spriteOpts : SpriteOptions;
  data : array;
  imageData : array;
  rng : RandomSource
}.

Definition with_data (s : Sprite) (d : array) : Sprite :=
  {| mask := mask s; spriteOpts := spriteOpts s; data := d;
     imageData := imageData s; rng := rng s |}.

Definition with_imageData (s : Sprite) (d : array) : Sprite :=
  {| mask := mask s; spriteOpts := spriteOpts s; data := data s;
     imageData := d; rng := rng s |}.

(** [this.rng()] *)
Definition next (s : Sprite) : float * Sprite :=
  (stream (rng s) (drawn (rng s)),
   {| mask := mask s; spriteOpts := spriteOpts s; data := data s;
      imageData := imageData s;
      rng := {| stream := stream (rng s); drawn := S (drawn (rng s)) |} |}).

(** What the constructor leaves behind: the lines of [console.warn] and
    the object, unless [init] threw. *)
Record Construction := { console : list string; result : Outcome Sprite }.

Definition comma {A B : Type} (_ : A) (y : B) : B := y.

(** [switch (i % 6)] without a default: outside the six cases the function
    returns [undefined], here [None]. *)
Definition hslToRgb (h s l : float) : option RGB :=
  let i := Math.floor (h * 6) in
  let f := (h * 6 - i)%float in
  let p := (l * (1 - s))%float in
  let q := (l * (1 - f * s))%float in
  let t := (l * (1 - (1 - f) * s))%float in
  match rem6 i with
  | Some 0%Z => Some {| r := l; g := t; b := p |}
  | Some 1%Z => Some {| r := q; g := l; b := p |}
  | Some 2%Z => Some {| r := p; g := l; b := t |}
  | Some 3%Z => Some {| r := p; g := q; b := l |}
  | Some 4%Z => Some {| r := t; g := p; b := l |}
  | Some 5%Z => Some {| r := l; g := p; b := q |}
  | _ => None
  end.

(** [const { r, g, b } = o]: destructuring [undefined] throws. *)
Definition destructure (o : option RGB) : Outcome RGB :=
  match o with
  | Some c => Completed c
  | None => Threw (TypeError "Cannot destructure property 'r' of undefined")
  end.

(** ** The class *)

Section Class.

(** The host's [Math.sin], and the [seedrandom] package: the stream of
    numbers the generator seeded with a string produces. Without a seed
    the package seeds itself from the host's entropy, which the
    constructor below takes as an argument. *)
Variable sin : float → float.
Variable seedrandom : string → nat → float.

Definition SeedRandom (entropy : string) (seed : option string) : RandomSource :=
  {| stream := seedrandom (default entropy seed); drawn := 0 |}.

(** The getters. In the methods below the local constants [height] and
    [width] of the source are [h] and [w]. *)
Definition width (s : Sprite) : nat :=
  Mask.width (mask s) * (if Mask.mirrorX (mask s) then 2 else 1).

Definition height (s : Sprite) : nat :=
  Mask.height (mask s) * (if Mask.mirrorY (mask s) then 2 else 1).

Definition spriteImageData (s : Sprite) : array := imageData s.

Definition setData (s : Sprite) (x y : nat) (v : value) : Sprite :=
  with_data s (write (data s) (y * width s + x) v).

Definition getData (s : Sprite) (x y : nat) : value :=
  read (data s) (y * width s + x).

(** [mask.data[i]] *)
Definition mask_cell (m : Mask) (i : nat) : value :=
  match Mask.data m !! i with
  | Some f => num f
  | None => undefined
  end.

Definition applyMask (s : Sprite) : Sprite :=
  let h := Mask.height (mask s) in
  let w := Mask.width (mask s) in
  for_loop h (fun y s =>
    for_loop w (fun x s =>
      setData s x y (mask_cell (mask s) (y * w + x))) s) s.

(** The default [randomSampleCallback]. *)
Definition defaultSample (x y : nat) (s : Sprite) : value * Sprite :=
  let val := getData s x y in
  if strict_eq val RandomlyEmptyBody then
    let '(d, s) := next s in
    (num (to_number val * Math.round d), s)
  else if strict_eq val RandomlyBorderBody then
    let '(d, s) := next s in
    (if PrimFloat.ltb 0.5 d then num RandomlyEmptyBody else num AlwaysBorder, s)
  else (val, s).

Definition sample (x y : nat) (s : Sprite) : value * Sprite :=
  match randomSampleCallback (spriteOpts s) with
  | Some callback => (callback x y, s)
  | None => defaultSample x y s
  end.

Definition generateRandomSample (s : Sprite) : Sprite :=
  let h := height s in
  let w := width s in
  for_loop h (fun y s =>
    for_loop w (fun x s =>
      let '(v, s) := sample x y s in setData s x y v) s) s.

Definition mirrorX (s : Sprite) : Sprite :=
  let h := height s in
  let w := width s / 2 in
  for_loop h (fun y s =>
    for_loop w (fun x s =>
      setData s (width s - x - 1) y (getData s x y)) s) s.

Definition mirrorY (s : Sprite) : Sprite :=
  let h := height s / 2 in
  let w := width s in
  for_loop h (fun y s =>
    for_loop w (fun x s =>
      setData s x (height s - y - 1) (getData s x y)) s) s.

(** One cell of the edge pass. On natural numbers [y - 1 >= 0] is
    [1 <= y]. *)
Definition edgeCell (h w x y : nat) (s : Sprite) : Sprite :=
  let val := getData s x y in
  if strict_eq val AlwaysBorder || strict_eq val Empty then s
  else
    let s := if (1 <=? y) && strict_eq (getData s x (y - 1)) Empty
             then setData s x (y - 1) (num AlwaysBorder) else s in
    let s := if (y + 1 <? h) && strict_eq (getData s x (y + 1)) Empty
             then setData s x (y + 1) (num AlwaysBorder) else s in
    let s := if (1 <=? x) && strict_eq (getData s (x - 1) y) Empty
             then setData s (x - 1) y (num AlwaysBorder) else s in
    let s := if (x + 1 <? w) && strict_eq (getData s (x + 1) y) Empty
             then setData s (x + 1) y (num AlwaysBorder) else s in
    s.

Definition generateEdges (s : Sprite) : Sprite :=
  let h := height s in
  let w := width s in
  for_loop h (fun y s => for_loop w (fun x s => edgeCell h w x y s) s) s.

(** The colour of one pixel, before the tint: [rgb] after the block
    [if (val !== Empty) { ... }]. *)
Definition pixelColor (ulen u : nat) (hue saturation : float) (val : value)
    (s : Sprite) : Outcome (RGB * Sprite) :=
  let rgb := {| r := 1; g := 1; b := 1 |} in
  if negb (strict_eq val Empty) then
    if truthy (colored (spriteOpts s)) then
      let wave := (sin (of_nat u / of_nat ulen * Math.PI)
                   * (1 - number (brightnessNoise (spriteOpts s))))%float in
      let '(d, s) := next s in
      let brightness := (wave + d + number (brightnessNoise (spriteOpts s)))%float in
      c ← destructure (hslToRgb hue saturation brightness);
      let rgb := {| r := r c; g := g c; b := b c |} in
      let rgb :=
        if strict_eq val AlwaysBorder then
          {| r := r rgb * number (edgeBrightness (spriteOpts s));
             g := g rgb * number (edgeBrightness (spriteOpts s));
             b := b rgb * number (edgeBrightness (spriteOpts s)) |}
        else rgb in
      mret (rgb, s)
    else
      let rgb :=
        if strict_eq val AlwaysBorder then {| r := 0; g := 0; b := 0 |} else rgb in
      mret (rgb, s)
  else mret (rgb, s).

(** Where the pixel of the loop indices [u], [v] starts in [imageData]. *)
Definition pixelIndex (isVerticalGradient : bool) (ulen vlen u v : nat) : nat :=
  if isVerticalGradient then (u * vlen + v) * 4 else (v * ulen + u) * 4.

(** [a[i] *= f] *)
Definition scale (a : array) (i : nat) (f : float) : array :=
  write a i (num (to_number (read a i) * f)).

(** The body of the inner loop of [calculateColors]. *)
Definition colorPixel (isVerticalGradient : bool) (ulen vlen : nat)
    (hue saturation : float) (u v : nat) (s : Sprite) : Outcome Sprite :=
  let val := if isVerticalGradient then getData s v u else getData s u v in
  let index := pixelIndex isVerticalGradient ulen vlen u v in
  let tintMask :=
    match tint (spriteOpts s) with
    | Some t => t
    | None => {| r := 1; g := 1; b := 1 |}
    end in
  '(rgb, s) ← pixelColor ulen u hue saturation val s;
  let s := with_imageData s (write (imageData s) (index + 0) (num (r rgb * 255))) in
  let s := with_imageData s (write (imageData s) (index + 1) (num (g rgb * 255))) in
  let s := with_imageData s (write (imageData s) (index + 2) (num (b rgb * 255))) in
  let s := with_imageData s (write (imageData s) (index + 3) (num 255)) in
  let s :=
    if negb (strict_eq val Empty) then
      let s := with_imageData s (scale (imageData s) (index + 0) (r tintMask)) in
      let s := with_imageData s (scale (imageData s) (index + 1) (g tintMask)) in
      let s := with_imageData s (scale (imageData s) (index + 2) (b tintMask)) in
      s
    else s in
  mret s.

(** The head of the outer loop: three draws, of which the comma operator
    keeps the last, and a new hue when the signal is large enough. *)
Definition colorChange (hue : float) (s : Sprite) : float * (float * Sprite) :=
  let '(d1, s) := next s in
  let '(d2, s) := next s in
  let '(d3, s) := next s in
  let isNewColor :=
    Math.abs (comma (d1 * 2 - 1) (comma (d2 * 2 - 1) (d3 * 2 - 1)) / 3)%float in
  if PrimFloat.ltb (1 - number (colorVariations (spriteOpts s)))%float isNewColor
  then let '(d, s) := next s in (isNewColor, (d, s))
  else (isNewColor, (hue, s)).

(** One round of the outer loop, on the variables it updates: [hue] and
    the object. *)
Definition gradientStep (isVerticalGradient : bool) (ulen vlen : nat)
    (saturation : float) (u : nat) (hs : float * Sprite)
    : Outcome (float * Sprite) :=
  let '(hue, s) := hs in
  let '(_, (hue, s)) := colorChange hue s in
  s ← for_loopM vlen (colorPixel isVerticalGradient ulen vlen hue saturation u) s;
  mret (hue, s).

Definition calculateColors (s : Sprite) : Outcome Sprite :=
  let '(d, s) := next s in
  let isVerticalGradient := PrimFloat.ltb 0.5 d in
  let '(d, s) := next s in
  let saturation :=
    Math.max (Math.min (d * number (saturation (spriteOpts s))) 1) 0 in
  let '(hue, s) := next s in
  let ulen := if isVerticalGradient then height s else width s in
  let vlen := if isVerticalGradient then width s else height s in
  hs ← for_loopM ulen (gradientStep isVerticalGradient ulen vlen saturation)
         (hue, s);
  mret (snd hs).

Definition init (s : Sprite) : Outcome Sprite :=
  let s := applyMask s in
  let s := generateRandomSample s in
  let s := if Mask.mirrorX (mask s) then mirrorX s else s in
  let s := if Mask.mirrorY (mask s) then mirrorY s else s in
  let s := generateEdges s in
  calculateColors s.

Definition widthWarning : string :=
  "Sprite Warning: Width is not evenly divisible by 2, mirroring X will look odd.".
Definition heightWarning : string :=
  "Sprite Warning: Height is not evenly divisible by 2, mirroring Y will look odd.".

(** [new Sprite(mask, opts)]; [opts] left out is [opts] with no field. When
    [Array] throws, the constructor is left before its warnings. *)
Definition construct (entropy : string) (m : Mask) (opts : SpriteOptions)
    : Construction :=
  let o := merge defaults opts in
  let s := {| mask := m; spriteOpts := o; data := ∅; imageData := ∅;
              rng := SeedRandom entropy (seed o) |} in
  match Array (width s * height s) with
  | Threw e => {| console := []; result := Threw e |}
  | Completed n =>
      let s := with_data s (Array_fill n (num AlwaysBorder)) in
      let warnX := if negb (width s mod 2 =? 0) && Mask.mirrorX (mask s)
                   then [widthWarning] else [] in
      let warnY := if negb (height s mod 2 =? 0) && Mask.mirrorY (mask s)
                   then [heightWarning] else [] in
      {| console := warnX ++ warnY; result := init s |}
  end.

End Class.

(** ** The textual dump *)

Section Dump.

(** The host's conversion of a number to a string. *)
Variable Number_toString : float → string.

(** [val >= 0]; [undefined] compares as NaN. *)
Definition ge_zero (val : value) : bool :=
  match val with
  | num f => PrimFloat.leb 0 f
  | undefined => false
  end.

(** ToString, as [+] applies it to the right operand of a string. *)
Definition ToString (val : value) : string :=
  match val with
  | num f => Number_toString f
  | undefined => "undefined"
  end.

Definition newline : string := String (Ascii.ascii_of_nat 10) EmptyString.

Definition toString (s : Sprite) : string :=
  let h := height s in
  let w := width s in
  for_loop h (fun y output =>
    String.append
      (for_loop w (fun x output =>
         let val := getData s x y in
         String.append output
           (if ge_zero val then String.append "  " (ToString val)
            else String.append " " (ToString val))) output)
      newline) EmptyString.

End Dump.

(** ** Definitions the statements use *)

(** The edge pass with two buffers, the variant section 4.5 of the
    specification sets against the source's: every test reads the
    [snapshot] taken before the pass and every write goes to the copy. *)
Definition edgeCell_two_buffer (snapshot : Sprite) (h w x y : nat) (out : Sprite)
    : Sprite :=
  let val := getData snapshot x y in
  if strict_eq val AlwaysBorder || strict_eq val Empty then out
  else
    let out := if (1 <=? y) && strict_eq (getData snapshot x (y - 1)) Empty
               then setData out x (y - 1) (num AlwaysBorder) else out in
    let out := if (y + 1 <? h) && strict_eq (getData snapshot x (y + 1)) Empty
               then setData out x (y + 1) (num AlwaysBorder) else out in
    let out := if (1 <=? x) && strict_eq (getData snapshot (x - 1) y) Empty
               then setData out (x - 1) y (num AlwaysBorder) else out in
    let out := if (x + 1 <? w) && strict_eq (getData snapshot (x + 1) y) Empty
               then setData out (x + 1) y (num AlwaysBorder) else out in
    out.

Definition generateEdges_two_buffer (s : Sprite) : Sprite :=
  let h := height s in
  let w := width s in
  for_loop h (fun y out =>
    for_loop w (fun x out => edgeCell_two_buffer s h w x y out) out) s.

(** The four bytes of the pixel in column [x] of row [y], as a consumer of
    [spriteImageData] reads them: row-major, R, G, B, A. *)
Definition pixelAt (s : Sprite) (x y : nat) : list value :=
  let a := spriteImageData s in
  let i := (y * width s + x) * 4 in
  [read a i; read a (i + 1); read a (i + 2); read a (i + 3)].

Definition white : list value := [num 255; num 255; num 255; num 255].
Definition black : list value := [num 0; num 0; num 0; num 255].

(** A cell of the edge pass that is neither border nor empty. *)
Definition isBody (v : value) : bool :=
  negb (strict_eq v AlwaysBorder || strict_eq v Empty).

(** One of the four structural codes. *)
Definition isCode (v : value) : bool :=
  strict_eq v AlwaysBorder || strict_eq v Empty
  || strict_eq v RandomlyEmptyBody || strict_eq v RandomlyBorderBody.

(** Two cells of a [w] by [h] grid that share a side. *)
Definition adjacent (w h x y x' y' : nat) : Prop :=
  x < w ∧ y < h ∧ x' < w ∧ y' < h ∧
  ((x' = x ∧ (y' = y + 1 ∨ y = y' + 1)) ∨ (y' = y ∧ (x' = x + 1 ∨ x = x' + 1))).

(** [s] after [n] more draws. *)
Definition advance (n : nat) (s : Sprite) : Sprite :=
  {| mask := mask s; spriteOpts := spriteOpts s; data := data s;
     imageData := imageData s;
     rng := {| stream := stream (rng s); drawn := n + drawn (rng s) |} |}.

(** Options that differ from [o] in [edgeBrightness] only. *)
Definition with_edgeBrightness (o : SpriteOptions) (e : option float) : SpriteOptions :=
  {| colored := colored o; edgeBrightness := e;
     colorVariations := colorVariations o; brightnessNoise := brightnessNoise o;
     saturation := saturation o; seed := seed o; tint := tint o;
     randomSampleCallback := randomSampleCallback o |}.

(** The buffer of a construction, if it completed. *)
Definition buffer (c : Construction) : Outcome array :=
  match result c with
  | Completed s => Completed (spriteImageData s)
  | Threw e => Threw e
  end.

(** One neighbour of the edge pass: the test reads [src], the write goes
    to [s]. The source's pass has [src = s]. *)
Definition border (src : Sprite) (c : bool) (x y : nat) (s : Sprite) : Sprite :=
  if c && strict_eq (getData src x y) Empty
  then setData s x y (num AlwaysBorder) else s.

(** During the edge pass over [s0], a cell of the grid [d] is as it was or
    was empty and has become a border next to a body cell of [s0]. *)
Definition edge_sound (s0 : Sprite) (d : array) : Prop :=
  ∀ k, d !! k = data s0 !! k
       ∨ (strict_eq (read (data s0) k) Empty = true
          ∧ d !! k = Some (num AlwaysBorder)
          ∧ ∃ x y x' y', k = y * width s0 + x
              ∧ adjacent (width s0) (height s0) x y x' y'
              ∧ isBody (getData s0 x' y') = true).

(** Every empty neighbour of a body cell that the pass has [visited] is a
    border in [d]. *)
Definition edge_complete (s0 : Sprite) (visited : nat → nat → Prop) (d : array)
    : Prop :=
  ∀ px py x y,
    visited px py → isBody (getData s0 px py) = true →
    adjacent (width s0) (height s0) px py x y →
    strict_eq (getData s0 x y) Empty = true →
    d !! (y * width s0 + x) = Some (num AlwaysBorder).

(** The cells a row-major pass has visited when it stands at column [X] of
    row [Y]. *)
Definition scanned (Y X px py : nat) : Prop := py < Y ∨ (py = Y ∧ px < X).

(** The stages of [init] before the colours. *)
Definition structure (s : Sprite) : Sprite :=
  let s := applyMask s in
  let s := generateRandomSample s in
  let s := if Mask.mirrorX (mask s) then mirrorX s else s in
  let s := if Mask.mirrorY (mask s) then mirrorY s else s in
  generateEdges s.

(** The seven writes of [colorPixel] on the array. *)
Definition painted (a : array) (i : nat) (rgb tintMask : RGB) (nonEmpty : bool)
    : array :=
  let a := write a (i + 0) (num (r rgb * 255)) in
  let a := write a (i + 1) (num (g rgb * 255)) in
  let a := write a (i + 2) (num (b rgb * 255)) in
  let a := write a (i + 3) (num 255) in
  if nonEmpty then
    let a := scale a (i + 0) (r tintMask) in
    let a := scale a (i + 1) (g tintMask) in
    let a := scale a (i + 2) (b tintMask) in
    a
  else a.

(** The pixel of a cell when [colored] is off. *)
Definition plainPixel (t : option RGB) (val : value) : list value :=
  let tintMask := default {| r := 1; g := 1; b := 1 |} t in
  let rgb := if strict_eq val AlwaysBorder then {| r := 0; g := 0; b := 0 |}
             else {| r := 1; g := 1; b := 1 |} in
  if strict_eq val Empty then [num (1 * 255); num (1 * 255); num (1 * 255); num 255]
  else [num (r rgb * 255 * r tintMask); num (g rgb * 255 * g tintMask);
        num (b rgb * 255 * b tintMask); num 255].

(** The cells the loops of [calculateColors] have coloured when the outer
    loop stands at [u0] and the inner one at [v0]. *)
Definition coloured (isVerticalGradient : bool) (u0 v0 x y : nat) : Prop :=
  let u := if isVerticalGradient then y else x in
  let v := if isVerticalGradient then x else y in
  u < u0 ∨ (u = u0 ∧ v < v0).

(** What holds of the object [t] while [calculateColors] runs on [s]:
    only the buffer and the generator move, the buffer stays within its
    size, and every coloured cell has its four bytes, which are those of
    [plainPixel] when [colored] is off. *)
Definition colorize_inv (s : Sprite) (visited : nat → nat → Prop) (t : Sprite)
    : Prop :=
  mask t = mask s ∧ spriteOpts t = spriteOpts s ∧ data t = data s
  ∧ stream (rng t) = stream (rng s)
  ∧ (∀ k, is_Some (imageData t !! k) →
       is_Some (imageData s !! k) ∨ k < width s * height s * 4)
  ∧ (∀ x y, x < width s → y < height s → visited x y →
       (∀ c, c < 4 → is_Some (imageData t !! ((y * width s + x) * 4 + c)))
       ∧ (truthy (colored (spriteOpts s)) = false →
          pixelAt t x y = plainPixel (tint (spriteOpts s)) (getData s x y))).

(** The object [s] under another [edgeBrightness]. *)
Definition retune (e : option float) (s : Sprite) : Sprite :=
  {| mask := mask s; spriteOpts := with_edgeBrightness (spriteOpts s) e;
     data := data s; imageData := imageData s; rng := rng s |}.

#[export] Instance Outcome_fmap : FMap Outcome := fun _ _ f m =>
  match m with
  | Completed a => Completed (f a)
  | Threw e => Threw e
  end.

(** The effective dimensions, read off a mask. *)
Definition effectiveWidth (m : Mask) : nat :=
  Mask.width m * (if Mask.mirrorX m then 2 else 1).
Definition effectiveHeight (m : Mask) : nat :=
  Mask.height m * (if Mask.mirrorY m then 2 else 1).

(** The grid of the mask is no longer than an array may be. *)
Definition fits (m : Mask) : Prop :=
  (Z.of_nat (effectiveWidth m * effectiveHeight m) <= max_array_length)%Z.

(** The object the constructor hands to [init]. *)
Definition fresh (seedrandom : string → nat → float) (entropy : string)
    (m : Mask) (opts : SpriteOptions) : Sprite := {|
  mask := m; spriteOpts := merge defaults opts;
  data := Array_fill (effectiveWidth m * effectiveHeight m) (num AlwaysBorder);
  imageData := ∅;
  rng := SeedRandom seedrandom entropy (seed (merge defaults opts))
|}.




(** The head of [calculateColors] on [s]: the axis of the gradient, the
    bounds of its two loops, the saturation, and the cell that the loop
    indices [u], [v] stand for. *)
Definition isVertical (s : Sprite) : bool :=
  PrimFloat.ltb 0.5 (stream (rng s) (drawn (rng s))).
Definition ulenOf (s : Sprite) : nat := if isVertical s then height s else width s.
Definition vlenOf (s : Sprite) : nat := if isVertical s then width s else height s.
Definition saturationOf (s : Sprite) : float :=
  Math.max (Math.min (stream (rng s) (1 + drawn (rng s))
                      * number (saturation (spriteOpts s))) 1) 0.
Definition gradientCell (s : Sprite) (u v : nat) : value :=
  if isVertical s then getData s v u else getData s u v.

(** The object [t] while [calculateColors] runs on [s]: only the buffer
    and the number of draws move. *)
Definition framed (s t : Sprite) : Prop :=
  mask t = mask s ∧ spriteOpts t = spriteOpts s ∧ data t = data s
  ∧ stream (rng t) = stream (rng s).

(** [hue] and the object when round [u] of the outer loop of
    [calculateColors] begins: the source's loop, stopped before round [u]. *)
Definition roundState (sin : float → float) (s : Sprite) (u : nat)
    : Outcome (float * Sprite) :=
  let '(d, s) := next s in
  let isVerticalGradient := PrimFloat.ltb 0.5 d in
  let '(d, s) := next s in
  let saturation :=
    Math.max (Math.min (d * number (saturation (spriteOpts s))) 1) 0 in
  let '(hue, s) := next s in
  let ulen := if isVerticalGradient then height s else width s in
  let vlen := if isVerticalGradient then width s else height s in
  for_loopM u (gradientStep sin isVerticalGradient ulen vlen saturation) (hue, s).

(** How many of the numbers below [n] satisfy [p]. *)
Fixpoint count_upto (p : nat → bool) (n : nat) : nat :=
  match n with
  | 0 => 0
  | S k => count_upto p k + (if p k then 1 else 0)
  end.

(** The numbers that the pixels of round [u] draw: with [colored] on, one
    for every cell of the round that does not hold Empty. *)
Definition lineDraws (s : Sprite) (u : nat) : nat :=
  if truthy (colored (spriteOpts s))
  then count_upto (fun v => negb (strict_eq (gradientCell s u v) Empty)) (vlenOf s)
  else 0.

(** A round that begins when [n] numbers have been drawn draws the numbers
    [n], [n + 1] and [n + 2] of the stream; its signal is made of the third
    alone, and it takes number [n + 3] for its hue when the signal is above
    [1 - colorVariations]. *)
Definition isNewColorAt (s : Sprite) (n : nat) : float :=
  Math.abs ((stream (rng s) (n + 2) * 2 - 1) / 3)%float.
Definition newHueAt (s : Sprite) (n : nat) : bool :=
  PrimFloat.ltb (1 - number (colorVariations (spriteOpts s))) (isNewColorAt s n).

(** How many numbers have been drawn when round [u] begins, and the hue it
    begins with. *)
Fixpoint roundStart (s : Sprite) (u : nat) : nat :=
  match u with
  | 0 => drawn (rng s) + 3
  | S k =>
      let n := roundStart s k in
      n + 3 + (if newHueAt s n then 1 else 0) + lineDraws s k
  end.

Fixpoint hueAt (s : Sprite) (u : nat) : float :=
  match u with
  | 0 => stream (rng s) (drawn (rng s) + 2)
  | S k =>
      let n := roundStart s k in
      if newHueAt s n then stream (rng s) (n + 3) else hueAt s k
  end.

(** The indices of [imageData] that one round of the inner loop assigns
    to, in the order of the source: the four slots of the pixel, then the
    three colour slots again ([*=]) unless the cell holds Empty. *)
Definition pixelWrites (index : nat) (val : value) : list nat :=
  [index + 0; index + 1; index + 2; index + 3]
  ++ (if negb (strict_eq val Empty) then [index + 0; index + 1; index + 2] else []).

(** The assignments of round [u] and of a whole run of [calculateColors]
    on [s]. *)
Definition rowWrites (s : Sprite) (u : nat) : list nat :=
  for_loop (vlenOf s) (fun v l =>
    l ++ pixelWrites (pixelIndex (isVertical s) (ulenOf s) (vlenOf s) u v)
           (gradientCell s u v)) [].


(** The array [a] after the assignments [ws], in order. *)
Definition replay (a : array) (ws : list (nat * value)) : array :=
  foldl (fun a w => write a w.1 w.2) a ws.


(** ** Inputs for the examples *)

(** A host sine: the odd polynomial of degree 21 after reflecting the upper
    half of [0, PI] onto the lower (ECMA-262 leaves the precision of
    [Math.sin] to the host and fixes [sin(+0) = +0]). *)
Definition host_sin (x : float) : float :=
  let x := if PrimFloat.ltb (Math.PI / 2) x then (Math.PI - x)%float else x in
  let x2 := (x * x)%float in
  (x * (1 - x2 / 6 * (1 - x2 / 20 * (1 - x2 / 42 * (1 - x2 / 72 * (1 - x2 / 110
     * (1 - x2 / 156 * (1 - x2 / 210 * (1 - x2 / 272 * (1 - x2 / 342
     * (1 - x2 / 420)))))))))))%float.

(** A generator that returns the listed numbers, then 0.5 forever. *)
Definition draws (l : list float) (_ : string) (n : nat) : float :=
  nth n l 0.5%float.


Definition seeded (sd : string) : SpriteOptions := {|
  colored := None; edgeBrightness := None; colorVariations := None;
  brightnessNoise := None; saturation := None; seed := Some sd; tint := None;
  randomSampleCallback := None
|}.

Definition colored_options : SpriteOptions := {|
  colored := Some true; edgeBrightness := None; colorVariations := None;
  brightnessNoise := None; saturation := None; seed := Some "mixel"%string;
  tint := None; randomSampleCallback := None
|}.


(** One border cell, mirrored into a row of two. *)
Definition border_pair : Mask := {|
  Mask.data := [AlwaysBorder]; Mask.width := 1; Mask.height := 1;
  Mask.mirrorX := true; Mask.mirrorY := false
|}.

(** A body cell between two empty ones, mirrored in both directions. *)
Definition body_mask : Mask := {|
  Mask.data := [Empty; RandomlyBorderBody; Empty]; Mask.width := 3;
  Mask.height := 1; Mask.mirrorX := true; Mask.mirrorY := true
|}.

(** The object before [init]: the grid filled with borders. *)
Definition blank (m : Mask) : Sprite := {|
  mask := m; spriteOpts := defaults;
  data := Array_fill (effectiveWidth m * effectiveHeight m) (num AlwaysBorder);
  imageData := ∅;
  rng := {| stream := draws [] ""; drawn := 0 |}
|}.

(** A row of three cells, a body cell between two empty ones, after
    [applyMask]. *)
Definition strip : Mask := {|
  Mask.data := [Empty; RandomlyBorderBody; Empty]; Mask.width := 3;
  Mask.height := 1; Mask.mirrorX := false; Mask.mirrorY := false
|}.
Definition strip_sprite : Sprite := applyMask (blank strip).

(** What the default callback makes of a cell that held [v], with the
    first [n] draws of the stage at hand. *)
Definition sampled (s : Sprite) (n : nat) (v v' : value) : Prop :=
  (strict_eq v RandomlyEmptyBody = true →
   ∃ k, k < n
     ∧ v' = num (to_number v * Math.round (stream (rng s) (k + drawn (rng s)))))
  ∧ (strict_eq v RandomlyBorderBody = true →
     v' = num RandomlyEmptyBody ∨ v' = num AlwaysBorder)
  ∧ (strict_eq v RandomlyEmptyBody = false →
     strict_eq v RandomlyBorderBody = false → v' = v).

(** Options with a callback of the caller that empties every cell. *)
Definition clearing_options : SpriteOptions := {|
  colored := None; edgeBrightness := None; colorVariations := None;
  brightnessNoise := None; saturation := None; seed := None; tint := None;
  randomSampleCallback := Some (fun _ _ => num Empty)
|}.
Definition clearing_sprite : Sprite := {|
  mask := strip; spriteOpts := clearing_options;
  data := data strip_sprite; imageData := ∅;
  rng := {| stream := draws [] ""; drawn := 0 |}
|}.

(** What holds of every pixel while [calculateColors] runs on [s], with
    [colored] on or off: the grid is not touched, the alpha byte of a
    coloured cell is 255, and a cell that holds Empty is white. *)
Definition pixels_inv (s : Sprite) (visited : nat → nat → Prop) (t : Sprite)
    : Prop :=
  mask t = mask s ∧ spriteOpts t = spriteOpts s ∧ data t = data s
  ∧ ∀ x y, x < width s → y < height s → visited x y →
      read (imageData t) ((y * width s + x) * 4 + 3) = num 255
      ∧ (strict_eq (getData s x y) Empty = true → pixelAt t x y = white).

(** Every cell of the grid has a value, and no index beyond the grid has. *)
Definition grid_wf (s : Sprite) : Prop :=
  ∀ k, is_Some (data s !! k) ↔ k < width s * height s.

(** A step [f] of a stage on objects of mask [m]: the mask stays and the
    grid keeps its cells. *)
Definition keeps_grid (m : Mask) (f : Sprite → Sprite) : Prop :=
  ∀ t, mask t = m → mask (f t) = m ∧ (grid_wf t → grid_wf (f t)).

(** A host that writes the four structural codes as JavaScript does. *)
Definition code_text (f : float) : string :=
  if PrimFloat.eqb f Empty then "0"
  else if PrimFloat.eqb f RandomlyEmptyBody then "1"
  else if PrimFloat.eqb f RandomlyBorderBody then "2"
  else "-1".

(** Options with a tint and nothing else. *)
Definition tinted_options : SpriteOptions := {|
  colored := None; edgeBrightness := None; colorVariations := None;
  brightnessNoise := None; saturation := None; seed := Some "mixel"%string;
  tint := Some {| r := 0.5; g := 0.25; b := 1 |}; randomSampleCallback := None
|}.

(** The mask [body_mask] copied into its grid of six by two. *)
Definition mirror_sprite : Sprite := applyMask (blank body_mask).

(** Options under which the hue changes often. *)
Definition varied_options : SpriteOptions := {|
  colored := None; edgeBrightness := None; colorVariations := Some 0.9%float;
  brightnessNoise := None; saturation := None; seed := Some "mixel"%string;
  tint := None; randomSampleCallback := None
|}.




(** A host generator whose numbers depend on the key it runs on. *)
Definition keyed (key : string) (n : nat) : float :=
  (of_nat ((3 * String.length key + n) mod 8) / 8)%float.



(** ** Loops *)

Lemma for_loop_ind {St : Type} (P : nat → St → Prop) n (body : nat → St → St) s :
  P 0 s →
  (∀ i t, i < n → P i t → P (S i) (body i t)) →
  P n (for_loop n body s).
Proof.
  intros H0 Hstep. induction n as [|n IH]; simpl; [done|].
  apply Hstep; [lia|]. apply IH. intros i t Hi. apply Hstep. lia.
Qed.

Lemma for_loopM_ind {St : Type} (P : nat → St → Prop) n
    (body : nat → St → Outcome St) s s' :
  P 0 s →
  (∀ i t t', i < n → P i t → body i t = Completed t' → P (S i) t') →
  for_loopM n body s = Completed s' →
  P n s'.
Proof.
  intros H0 Hstep. revert s'. induction n as [|n IH]; simpl; intros s' Hrun.
  - by injection Hrun as <-.
  - destruct (for_loopM n body s) as [t|e] eqn:Ht; simpl in Hrun; [|done].
    apply (Hstep n t); [lia| |done].
    apply IH; [|done]. intros i a a' Hi. apply Hstep. lia.
Qed.

(** A loop completes when its body completes on every state it reaches. *)
Lemma for_loopM_total {St : Type} (Q : St → Prop) n (body : nat → St → Outcome St) s :
  Q s →
  (∀ i t, i < n → Q t → ∃ t', body i t = Completed t' ∧ Q t') →
  ∃ s', for_loopM n body s = Completed s' ∧ Q s'.
Proof.
  intros H0 Hstep. induction n as [|n IH]; simpl; [by exists s|].
  destruct IH as (t & -> & Ht); [intros i a Hi; apply Hstep; lia|].
  simpl. apply Hstep; [lia|done].
Qed.

(** A loop commutes with a map of the state that its body commutes with. *)
Lemma for_loop_commute {St : Type} (f : St → St) n (body : nat → St → St) s :
  (∀ i a, body i (f a) = f (body i a)) →
  for_loop n body (f s) = f (for_loop n body s).
Proof. intros Hbody. induction n as [|n IH]; simpl; [done|]. by rewrite IH, Hbody. Qed.

Lemma for_loopM_commute {St : Type} (Q : St → Prop) (f : St → St) n
    (body : nat → St → Outcome St) s :
  Q s →
  (∀ i a, Q a → body i (f a) = f <$> body i a
              ∧ ∀ a', body i a = Completed a' → Q a') →
  for_loopM n body (f s) = f <$> for_loopM n body s
  ∧ ∀ s', for_loopM n body s = Completed s' → Q s'.
Proof.
  intros HQ Hbody. induction n as [|n [IH IHQ]]; simpl.
  - split; [done|]. by intros s' [= <-].
  - rewrite IH. destruct (for_loopM n body s) as [a|e]; simpl; [|done].
    destruct (Hbody n a) as [Heq HQ']; [by apply IHQ|]. done.
Qed.


(** ** Arrays and the object's fields *)

Lemma read_write_eq a i v : read (write a i v) i = v.
Proof. unfold read, write. by rewrite lookup_insert_eq. Qed.

Lemma read_write_ne a i j v : i ≠ j → read (write a i v) j = read a j.
Proof. intros. unfold read, write. by rewrite lookup_insert_ne. Qed.

Lemma with_data_id s : with_data s (data s) = s.
Proof. by destruct s. Qed.

(** A cell of a [w]-wide grid has one index. *)
Lemma cell_index_inj w x y x' y' :
  x < w → x' < w → y * w + x = y' * w + x' → x = x' ∧ y = y'.
Proof.
  intros Hx Hx' Heq.
  assert (y = y') as ->; [|lia].
  destruct (Nat.lt_trichotomy y y') as [Hlt|[->|Hlt]]; [|done|].
  - assert (y * w + w ≤ y' * w) by nia. lia.
  - assert (y' * w + w ≤ y * w) by nia. lia.
Qed.

(** ** Drawing from the generator *)

Lemma next_advance s : next s = (stream (rng s) (drawn (rng s)), advance 1 s).
Proof. reflexivity. Qed.

(** The head of the outer loop in closed form. *)
Lemma colorChange_closed_form hue s :
  let draw k := stream (rng s) (k + drawn (rng s)) in
  let isNewColor := Math.abs ((draw 2%nat * 2 - 1) / 3)%float in
  let changes :=
    PrimFloat.ltb (1 - number (colorVariations (spriteOpts s))) isNewColor in
  colorChange hue s
  = (isNewColor, if changes then (draw 3, advance 4 s) else (hue, advance 3 s)).
Proof.
  intros draw isNewColor changes. unfold colorChange, comma. simpl.
  change (Math.abs ((stream (rng s) (S (S (drawn (rng s)))) * 2 - 1) / 3))
    with isNewColor.
  change (PrimFloat.ltb (1 - number (colorVariations (spriteOpts s))) isNewColor)
    with changes.
  by destruct changes.
Qed.

(** ** Structural codes *)

Lemma empty_not_border v :
  strict_eq v Empty = true → strict_eq v AlwaysBorder = false.
Proof.
  destruct v as [|f]; simpl; [done|].
  rewrite !FloatAxioms.eqb_spec.
  assert (H0 : Prim2SF Empty = S754_zero false) by (vm_compute; reflexivity).
  assert (H1 : ∃ m e, Prim2SF AlwaysBorder = S754_finite true m e)
    by (vm_compute; eauto).
  destruct H1 as (m & e & H1). rewrite H0, H1.
  destruct (Prim2SF f) as [[]|[]| |[] ? ?]; cbv [SFeqb SFcompare]; congruence.
Qed.

Lemma body_of_code v :
  isCode v = true → isBody v = true →
  strict_eq v RandomlyEmptyBody = true ∨ strict_eq v RandomlyBorderBody = true.
Proof.
  unfold isCode, isBody.
  destruct (strict_eq v AlwaysBorder), (strict_eq v Empty),
    (strict_eq v RandomlyEmptyBody), (strict_eq v RandomlyBorderBody);
    simpl; auto; discriminate.
Qed.

(** ** The edge pass *)

Lemma getData_with_data s d x y :
  getData (with_data s d) x y = read d (y * width s + x).
Proof. reflexivity. Qed.

Lemma setData_with_data s d x y v :
  setData (with_data s d) x y v = with_data s (write d (y * width s + x) v).
Proof. reflexivity. Qed.

Lemma edgeCell_border h w x y s :
  edgeCell h w x y s =
  if strict_eq (getData s x y) AlwaysBorder || strict_eq (getData s x y) Empty then s
  else
    let s1 := border s (1 <=? y) x (y - 1) s in
    let s2 := border s1 (y + 1 <? h) x (y + 1) s1 in
    let s3 := border s2 (1 <=? x) (x - 1) y s2 in
    border s3 (x + 1 <? w) (x + 1) y s3.
Proof. reflexivity. Qed.

Lemma edgeCell_two_buffer_border s0 h w x y s :
  edgeCell_two_buffer s0 h w x y s =
  if strict_eq (getData s0 x y) AlwaysBorder || strict_eq (getData s0 x y) Empty then s
  else
    border s0 (x + 1 <? w) (x + 1) y
      (border s0 (1 <=? x) (x - 1) y
         (border s0 (y + 1 <? h) x (y + 1)
            (border s0 (1 <=? y) x (y - 1) s))).
Proof. reflexivity. Qed.

Section EdgePass.

Variable s0 : Sprite.
Let W := width s0.
Let H := height s0.

(** One neighbour: the test on the grid under way and the test on the
    snapshot lead to the same grid. *)
Lemma border_step d c px py x y :
  edge_sound s0 d →
  (c = true → adjacent W H x y px py ∧ isBody (getData s0 px py) = true) →
  border (with_data s0 d) c x y (with_data s0 d) = border s0 c x y (with_data s0 d)
  ∧ ∃ d', border (with_data s0 d) c x y (with_data s0 d) = with_data s0 d'
      ∧ edge_sound s0 d'
      ∧ (∀ k, d !! k = Some (num AlwaysBorder) → d' !! k = Some (num AlwaysBorder))
      ∧ (c = true → strict_eq (getData s0 x y) Empty = true →
         d' !! (y * W + x) = Some (num AlwaysBorder)).
Proof.
  intros Hs Hc. unfold border. rewrite getData_with_data, setData_with_data.
  fold W. unfold getData. fold W.
  destruct c; simpl; [|split; [done|]; exists d; repeat split; auto; done].
  destruct (Hc eq_refl) as [Hadj Hbody].
  destruct (Hs (y * W + x)) as [Hsame|(He & Hab & _)].
  - assert (Hr : read d (y * W + x) = read (data s0) (y * W + x))
      by (unfold read; by rewrite Hsame).
    rewrite Hr. split; [done|].
    destruct (strict_eq (read (data s0) (y * W + x)) Empty) eqn:He.
    + exists (write d (y * W + x) (num AlwaysBorder)).
      split; [done|]. split; [|split].
      * intros k. unfold write. destruct (decide (k = y * W + x)) as [->|Hne].
        -- right. rewrite lookup_insert_eq. split; [done|]. split; [done|].
           exists x, y, px, py. done.
        -- rewrite lookup_insert_ne by done. apply Hs.
      * intros k Hk. unfold write. destruct (decide (k = y * W + x)) as [->|Hne].
        -- by rewrite lookup_insert_eq.
        -- by rewrite lookup_insert_ne.
      * intros _ _. unfold write. by rewrite lookup_insert_eq.
    + exists d. repeat split; auto; done.
  - assert (Hr : read d (y * W + x) = num AlwaysBorder)
      by (unfold read; by rewrite Hab).
    rewrite Hr, He. simpl.
    assert (Hid : write d (y * W + x) (num AlwaysBorder) = d)
      by (unfold write; by apply insert_id).
    rewrite Hid. split; [done|]. exists d. repeat split; auto.
Qed.

(** One cell: the source's step and the two-buffer step agree, and the
    grid stays sound; a body cell leaves no empty neighbour. *)
Lemma edgeCell_step d x y :
  x < W → y < H → edge_sound s0 d →
  edgeCell H W x y (with_data s0 d) = edgeCell_two_buffer s0 H W x y (with_data s0 d)
  ∧ ∃ d', edgeCell H W x y (with_data s0 d) = with_data s0 d'
      ∧ edge_sound s0 d'
      ∧ (∀ k, d !! k = Some (num AlwaysBorder) → d' !! k = Some (num AlwaysBorder))
      ∧ (isBody (getData s0 x y) = true →
         ∀ x' y', adjacent W H x y x' y' →
           strict_eq (getData s0 x' y') Empty = true →
           d' !! (y' * W + x') = Some (num AlwaysBorder)).
Proof.
  intros Hx Hy Hs.
  rewrite edgeCell_border, edgeCell_two_buffer_border, getData_with_data. fold W.
  assert (Hskip : isBody (getData s0 x y) = false →
    with_data s0 d = with_data s0 d
    ∧ ∃ d', with_data s0 d = with_data s0 d'
      ∧ edge_sound s0 d'
      ∧ (∀ k, d !! k = Some (num AlwaysBorder) → d' !! k = Some (num AlwaysBorder))
      ∧ (isBody (getData s0 x y) = true →
         ∀ x' y', adjacent W H x y x' y' →
           strict_eq (getData s0 x' y') Empty = true →
           d' !! (y' * W + x') = Some (num AlwaysBorder))).
  { intros Hnb. split; [done|]. exists d. split; [done|]. split; [done|].
    split; [done|]. rewrite Hnb. done. }
  destruct (Hs (y * W + x)) as [Hsame|(He & Hab & _)].
  - assert (Hr : read d (y * W + x) = getData s0 x y)
      by (unfold getData, read; fold W; by rewrite Hsame).
    rewrite Hr.
    destruct (strict_eq (getData s0 x y) AlwaysBorder
              || strict_eq (getData s0 x y) Empty) eqn:Htest;
      [apply Hskip; unfold isBody; by rewrite Htest|].
    assert (Hb : isBody (getData s0 x y) = true) by (unfold isBody; by rewrite Htest).
    cbv zeta.
    destruct (border_step d (1 <=? y) x y x (y - 1) Hs) as (E1 & d1 & D1 & S1 & M1 & C1).
    { intros Hc%Nat.leb_le. split; [unfold adjacent; lia|done]. }
    rewrite <- E1, D1.
    destruct (border_step d1 (y + 1 <? H) x y x (y + 1) S1) as (E2 & d2 & D2 & S2 & M2 & C2).
    { intros Hc%Nat.ltb_lt. split; [unfold adjacent; lia|done]. }
    rewrite <- E2, D2.
    destruct (border_step d2 (1 <=? x) x y (x - 1) y S2) as (E3 & d3 & D3 & S3 & M3 & C3).
    { intros Hc%Nat.leb_le. split; [unfold adjacent; lia|done]. }
    rewrite <- E3, D3.
    destruct (border_step d3 (x + 1 <? W) x y (x + 1) y S3) as (E4 & d4 & D4 & S4 & M4 & C4).
    { intros Hc%Nat.ltb_lt. split; [unfold adjacent; lia|done]. }
    rewrite <- E4, D4. split; [done|].
    exists d4. split; [done|]. split; [done|]. split; [by auto|].
    intros _ x' y' (_ & _ & Hx' & Hy' & Hadj) Hempty.
    destruct Hadj as [[-> [->| ->]]|[-> [->| ->]]].
    + apply M4, M3. apply C2; [apply Nat.ltb_lt; lia|done].
    + apply M4, M3, M2.
      replace (y' + 1 - 1) with y' in C1 by lia.
      apply C1; [apply Nat.leb_le; lia|done].
    + apply C4; [apply Nat.ltb_lt; lia|done].
    + apply M4.
      replace (x' + 1 - 1) with x' in C3 by lia.
      apply C3; [apply Nat.leb_le; lia|done].
  - assert (Hr : read d (y * W + x) = num AlwaysBorder)
      by (unfold read; by rewrite Hab).
    rewrite Hr.
    assert (He' : strict_eq (getData s0 x y) Empty = true) by exact He.
    rewrite He', orb_true_r. simpl.
    apply Hskip. unfold isBody. by rewrite He', orb_true_r.
Qed.

(** The pass: the source's in-place loop and the two-buffer loop end in the
    same object, whose grid is sound and complete. *)
Lemma generateEdges_run :
  generateEdges s0 = generateEdges_two_buffer s0
  ∧ ∃ d, generateEdges s0 = with_data s0 d
      ∧ edge_sound s0 d
      ∧ edge_complete s0 (fun px py => px < W ∧ py < H) d.
Proof.
  unfold generateEdges, generateEdges_two_buffer. fold W H.
  set (inner := fun y s => for_loop W (fun x s => edgeCell H W x y s) s).
  set (inner2 := fun y out =>
         for_loop W (fun x out => edgeCell_two_buffer s0 H W x y out) out).
  assert (Hrun : ∀ Y, Y ≤ H →
    for_loop Y inner s0 = for_loop Y inner2 s0
    ∧ ∃ d, for_loop Y inner s0 = with_data s0 d ∧ edge_sound s0 d
        ∧ edge_complete s0 (fun px py => px < W ∧ scanned Y 0 px py) d).
  { induction Y as [|Y IH]; intros HY.
    - split; [done|]. exists (data s0). split; [by rewrite with_data_id|].
      split; [intros k; by left|].
      intros px py x y [_ Hsc]. unfold scanned in Hsc. lia.
    - destruct IH as (Heq & d & Hd & Hs & Hc); [lia|].
      simpl. rewrite <- Heq, Hd. unfold inner at 1, inner2 at 1.
      assert (Hrow : ∀ X, X ≤ W →
        for_loop X (fun x s => edgeCell H W x Y s) (with_data s0 d)
        = for_loop X (fun x out => edgeCell_two_buffer s0 H W x Y out) (with_data s0 d)
        ∧ ∃ d', for_loop X (fun x s => edgeCell H W x Y s) (with_data s0 d)
                = with_data s0 d'
            ∧ edge_sound s0 d'
            ∧ edge_complete s0 (fun px py => px < W ∧ scanned Y X px py) d').
      { induction X as [|X IHX]; intros HX.
        - split; [done|]. exists d. split; [done|]. split; [done|].
          intros px py x y [Hpx Hsc]. apply Hc. done.
        - destruct IHX as (HeqX & d' & Hd' & Hs' & Hc'); [lia|].
          simpl. rewrite <- HeqX, Hd'.
          destruct (edgeCell_step d' X Y) as (E & d'' & D & S' & M & C); [lia|lia|done|].
          rewrite <- E, D. split; [done|]. exists d''. split; [done|]. split; [done|].
          intros px py x y [Hpx Hsc] Hb Hadj He.
          destruct Hsc as [Hlt|[-> Hlt]].
          + apply M. apply (Hc' px py); [split; [done|by left]|done..].
          + destruct (decide (px = X)) as [->|Hne].
            * by apply C.
            * apply M. apply (Hc' px Y); [|done..].
              split; [done|]. right. split; [done|lia]. }
      destruct (Hrow W) as (HeqW & d' & Hd' & Hs' & Hc'); [lia|].
      split; [done|]. exists d'. split; [done|]. split; [done|].
      intros px py x y [Hpx Hsc] Hb Hadj He.
      apply (Hc' px py); [|done..]. split; [done|].
      unfold scanned in *. lia. }
  destruct (Hrun H) as (Heq & d & Hd & Hs & Hc); [lia|].
  split; [done|]. exists d. split; [done|]. split; [done|].
  intros px py x y [Hpx Hpy]. apply Hc. split; [done|]. by left.
Qed.

End EdgePass.

Lemma adjacent_sym w h x y x' y' :
  adjacent w h x y x' y' → adjacent w h x' y' x y.
Proof. unfold adjacent. lia. Qed.

(** The edge pass keeps a symmetry of the grid: a map [σ] of the cells
    onto themselves that keeps sides and is its own inverse. *)
Lemma generateEdges_symmetric s0 (σ : nat → nat → nat * nat) :
  (∀ x y, x < width s0 → y < height s0 →
     (σ x y).1 < width s0 ∧ (σ x y).2 < height s0
     ∧ σ (σ x y).1 (σ x y).2 = (x, y)) →
  (∀ x y x' y', adjacent (width s0) (height s0) x y x' y' →
     adjacent (width s0) (height s0) (σ x y).1 (σ x y).2 (σ x' y').1 (σ x' y').2) →
  (∀ x y, x < width s0 → y < height s0 →
     getData s0 (σ x y).1 (σ x y).2 = getData s0 x y) →
  ∀ x y, x < width s0 → y < height s0 →
    getData (generateEdges s0) (σ x y).1 (σ x y).2 = getData (generateEdges s0) x y.
Proof.
  intros Hσ Hadjσ Hsym x y Hx Hy.
  destruct (generateEdges_run s0) as (_ & d & -> & Hsound & Hcomplete).
  rewrite !getData_with_data.
  destruct (Hσ x y Hx Hy) as (Hx' & Hy' & Hinv).
  set (W := width s0) in *. set (H := height s0) in *.
  destruct (σ x y) as [mx my] eqn:Hm. simpl in *.
  assert (Hm' : ∀ x' y', adjacent W H mx my x' y' →
            adjacent W H x y (σ x' y').1 (σ x' y').2).
  { intros x' y' Ha. apply Hadjσ in Ha. by rewrite Hinv in Ha. }
  assert (Hm'' : ∀ x' y', adjacent W H x y x' y' →
            adjacent W H mx my (σ x' y').1 (σ x' y').2).
  { intros x' y' Ha. apply Hadjσ in Ha. by rewrite Hm in Ha. }
  assert (Hcell : getData s0 mx my = getData s0 x y).
  { specialize (Hsym x y Hx Hy). by rewrite Hm in Hsym. }
  assert (Hborder : ∀ px py cx cy qx qy,
     adjacent W H cx cy px py → isBody (getData s0 px py) = true →
     adjacent W H qx qy (σ px py).1 (σ px py).2 →
     strict_eq (getData s0 qx qy) Empty = true →
     d !! (qy * W + qx) = Some (num AlwaysBorder)).
  { intros px py cx cy qx qy Ha Hb Haq He.
    apply (Hcomplete (σ px py).1 (σ px py).2); [| |by apply adjacent_sym|done].
    - unfold adjacent in Haq. lia.
    - rewrite Hsym; [done|unfold adjacent in Ha; lia..]. }
  destruct (Hsound (y * W + x)) as [Hk|(He & Hk & x1 & y1 & px & py & Hk1 & Ha & Hb)];
    destruct (Hsound (my * W + mx))
      as [Hk'|(He' & Hk' & x2 & y2 & qx & qy & Hk2 & Ha' & Hb')].
  - unfold read. rewrite Hk, Hk'. exact Hcell.
  - assert (mx = x2 ∧ my = y2) as [<- <-].
    { apply (cell_index_inj W); [done| |done]. unfold adjacent in Ha'. lia. }
    unfold read. rewrite Hk'.
    rewrite (Hborder qx qy mx my x y); [done|done|done|by apply Hm'|].
    change (strict_eq (getData s0 mx my) Empty = true) in He'. by rewrite <- Hcell.
  - assert (x = x1 ∧ y = y1) as [<- <-].
    { apply (cell_index_inj W); [done| |done]. unfold adjacent in Ha. lia. }
    unfold read. rewrite Hk.
    rewrite (Hborder px py x y mx my); [done|done|done|by apply Hm''|].
    change (strict_eq (getData s0 x y) Empty = true) in He. by rewrite Hcell.
  - unfold read. by rewrite Hk, Hk'.
Qed.

(** ** Mirroring *)

Lemma mirrorX_spec s0 :
  ∃ d, mirrorX s0 = with_data s0 d
    ∧ ∀ x y, x < width s0 → y < height s0 →
        read d (y * width s0 + x)
        = if decide (width s0 - width s0 / 2 ≤ x)
          then getData s0 (width s0 - 1 - x) y else getData s0 x y.
Proof.
  unfold mirrorX. set (W := width s0). set (H := height s0).
  assert (Hhalf : W / 2 + W / 2 ≤ W).
  { pose proof (Nat.div_mod_eq W 2). lia. }
  match goal with |- ∃ d, for_loop H ?f s0 = _ ∧ _ => set (body := f) end.
  assert (Hrun : ∃ d, for_loop H body s0 = with_data s0 d
    ∧ ∀ x y, x < W → y < H →
        read d (y * W + x)
        = if decide (y < H ∧ W - W / 2 ≤ x)
          then getData s0 (W - 1 - x) y else getData s0 x y).
  { pose (P := (fun (Y : nat) (s : Sprite) => ∃ d, s = with_data s0 d
      ∧ ∀ x y, x < W → y < H →
          read d (y * W + x)
          = if decide (y < Y ∧ W - W / 2 ≤ x)
            then getData s0 (W - 1 - x) y else getData s0 x y));
    apply (for_loop_ind P); subst P; cbv beta.
    - exists (data s0). split; [by rewrite with_data_id|].
      intros x y Hx Hy. case_decide; [lia|done].
    - intros Y s HY (d & -> & Hd). unfold body.
      assert (Hrow : ∃ d', for_loop (W / 2)
          (fun x s => setData s (width s - x - 1) Y (getData s x Y))
          (with_data s0 d) = with_data s0 d'
        ∧ ∀ x y, x < W → y < H →
          read d' (y * W + x)
          = if decide ((y < Y ∧ W - W / 2 ≤ x) ∨ (y = Y ∧ W - W / 2 ≤ x))
            then getData s0 (W - 1 - x) y else getData s0 x y).
      { pose (P := (fun (X : nat) (s : Sprite) => ∃ d', s = with_data s0 d'
          ∧ ∀ x y, x < W → y < H →
            read d' (y * W + x)
            = if decide ((y < Y ∧ W - W / 2 ≤ x) ∨ (y = Y ∧ W - X ≤ x))
              then getData s0 (W - 1 - x) y else getData s0 x y));
        apply (for_loop_ind P); subst P; cbv beta.
        - exists d. split; [done|]. intros x y Hx Hy.
          rewrite Hd by done. repeat case_decide; first [done|lia].
        - intros X s HX (d' & -> & Hd').
          rewrite getData_with_data, setData_with_data.
          change (width (with_data s0 d')) with W. fold W.
          eexists. split; [done|]. intros x y Hx Hy.
          destruct (decide (Y * W + (W - X - 1) = y * W + x)) as [Heq|Hne].
          + rewrite <- Heq, read_write_eq.
            apply cell_index_inj in Heq as [<- <-]; [|lia..].
            rewrite Hd' by lia.
            repeat case_decide; try lia. f_equal. lia.
          + rewrite read_write_ne by done. rewrite Hd' by done.
            assert (¬ (x = W - X - 1 ∧ y = Y)) by (intros [-> ->]; done).
            repeat case_decide; first [done|lia]. }
      destruct Hrow as (d' & -> & Hd'). exists d'. split; [done|].
      intros x y Hx Hy. rewrite Hd' by done.
      repeat case_decide; first [done|lia]. }
  destruct Hrun as (d & -> & Hd). exists d. split; [done|].
  intros x y Hx Hy. rewrite Hd by done. repeat case_decide; first [done|lia].
Qed.

Lemma mirrorY_spec s0 :
  ∃ d, mirrorY s0 = with_data s0 d
    ∧ ∀ x y, x < width s0 → y < height s0 →
        read d (y * width s0 + x)
        = if decide (height s0 - height s0 / 2 ≤ y)
          then getData s0 x (height s0 - 1 - y) else getData s0 x y.
Proof.
  unfold mirrorY. set (W := width s0). set (H := height s0).
  assert (Hhalf : H / 2 + H / 2 ≤ H).
  { pose proof (Nat.div_mod_eq H 2). lia. }
  pose (P := (fun (Y : nat) (s : Sprite) => ∃ d, s = with_data s0 d
    ∧ ∀ x y, x < W → y < H →
        read d (y * W + x)
        = if decide (H - Y ≤ y)
          then getData s0 x (H - 1 - y) else getData s0 x y));
    apply (for_loop_ind P); subst P; cbv beta.
  - exists (data s0). split; [by rewrite with_data_id|].
    intros x y Hx Hy. case_decide; [lia|done].
  - intros Y s HY (d & -> & Hd).
    assert (Hrow : ∃ d', for_loop W
        (fun x s => setData s x (height s - Y - 1) (getData s x Y))
        (with_data s0 d) = with_data s0 d'
      ∧ ∀ x y, x < W → y < H →
        read d' (y * W + x)
        = if decide (H - Y ≤ y ∨ (y = H - Y - 1 ∧ x < W))
          then getData s0 x (H - 1 - y) else getData s0 x y).
    { pose (P := (fun (X : nat) (s : Sprite) => ∃ d', s = with_data s0 d'
        ∧ ∀ x y, x < W → y < H →
          read d' (y * W + x)
          = if decide (H - Y ≤ y ∨ (y = H - Y - 1 ∧ x < X))
            then getData s0 x (H - 1 - y) else getData s0 x y));
      apply (for_loop_ind P); subst P; cbv beta.
      - exists d. split; [done|]. intros x y Hx Hy.
        rewrite Hd by done. repeat case_decide; first [done|lia].
      - intros X s HX (d' & -> & Hd').
        rewrite getData_with_data, setData_with_data.
        change (height (with_data s0 d')) with H. fold W.
        eexists. split; [done|]. intros x y Hx Hy.
        destruct (decide ((H - Y - 1) * W + X = y * W + x)) as [Heq|Hne].
        + rewrite <- Heq, read_write_eq.
          apply cell_index_inj in Heq as [<- <-]; [|lia..].
          rewrite Hd' by lia.
          repeat case_decide; try lia. f_equal. lia.
        + rewrite read_write_ne by done. rewrite Hd' by done.
          assert (¬ (x = X ∧ y = H - Y - 1)) by (intros [-> ->]; done).
          repeat case_decide; first [done|lia]. }
    destruct Hrow as (d' & -> & Hd'). exists d'. split; [done|].
    intros x y Hx Hy. rewrite Hd' by done.
    repeat case_decide; first [done|lia].
Qed.

(** ** The colours *)

Lemma colorPixel_painted sin isV ulen vlen hue sat u v s :
  colorPixel sin isV ulen vlen hue sat u v s =
  let val := if isV then getData s v u else getData s u v in
  '(rgb, t) ← pixelColor sin ulen u hue sat val s;
  mret (with_imageData t
          (painted (imageData t) (pixelIndex isV ulen vlen u v) rgb
             (default {| r := 1; g := 1; b := 1 |} (tint (spriteOpts s)))
             (negb (strict_eq val Empty)))).
Proof.
  unfold colorPixel, painted. cbv zeta.
  destruct (pixelColor _ _ _ _ _ _ _) as [[rgb t]|e]; [|done]. simpl.
  destruct (tint (spriteOpts s)); by destruct (negb _).
Qed.

Lemma painted_other a i rgb tm ne k :
  k < i ∨ i + 4 ≤ k → painted a i rgb tm ne !! k = a !! k.
Proof.
  intros Hk. unfold painted, scale, write.
  destruct ne; cbv zeta; rewrite ?lookup_insert_ne by lia; done.
Qed.

Lemma painted_pixel a i rgb tm ne :
  read (painted a i rgb tm ne) i
    = num (if ne then r rgb * 255 * r tm else r rgb * 255)%float
  ∧ read (painted a i rgb tm ne) (i + 1)
    = num (if ne then g rgb * 255 * g tm else g rgb * 255)%float
  ∧ read (painted a i rgb tm ne) (i + 2)
    = num (if ne then b rgb * 255 * b tm else b rgb * 255)%float
  ∧ read (painted a i rgb tm ne) (i + 3) = num 255.
Proof.
  unfold painted, scale. cbv zeta. rewrite Nat.add_0_r.
  destruct ne; repeat split;
    repeat first [ rewrite read_write_eq | rewrite read_write_ne by lia ]; done.
Qed.

Lemma painted_is_Some a i rgb tm ne c :
  c < 4 → is_Some (painted a i rgb tm ne !! (i + c)).
Proof.
  intros Hc. destruct (painted_pixel a i rgb tm ne) as (H0 & H1 & H2 & H3).
  assert (Hread : ∀ k f, read (painted a i rgb tm ne) k = num f →
            is_Some (painted a i rgb tm ne !! k)).
  { intros k f. unfold read. destruct (_ !! k); [eauto|done]. }
  assert (c = 0 ∨ c = 1 ∨ c = 2 ∨ c = 3) as [->|[->|[->| ->]]] by lia;
    rewrite ?Nat.add_0_r; eauto.
Qed.

Lemma array_length_lt (a : array) k :
  is_Some (a !! k) → (Z.of_nat k < max_array_length)%Z → k < array_length a.
Proof.
  intros Hk Hidx. unfold array_length.
  set (l := S <$> filter _ _).
  assert (Hin : S k ∈ l).
  { apply list_elem_of_fmap. exists k. split; [done|].
    apply list_elem_of_filter. split; [done|].
    by apply elem_of_elements, elem_of_dom. }
  pose proof (max_list_elem_of_le _ _ Hin). lia.
Qed.

Lemma array_length_le (a : array) n :
  (∀ k, is_Some (a !! k) → k < n) → array_length a ≤ n.
Proof.
  intros Hn. unfold array_length.
  set (l := S <$> filter _ _).
  destruct l as [|j l'] eqn:Hl; [simpl; lia|].
  assert (Hin : max_list (j :: l') ∈ l).
  { rewrite Hl. by apply max_list_elem_of. }
  apply list_elem_of_fmap in Hin as (k & -> & Hk).
  apply list_elem_of_filter in Hk as [_ Hk].
  apply elem_of_elements, elem_of_dom in Hk. by apply Hn.
Qed.

Lemma width_mask s t : mask s = mask t → width s = width t.
Proof. unfold width. by intros ->. Qed.

Lemma height_mask s t : mask s = mask t → height s = height t.
Proof. unfold height. by intros ->. Qed.

Lemma width_with_imageData s a : width (with_imageData s a) = width s.
Proof. reflexivity. Qed.

Lemma getData_frame s t x y :
  mask s = mask t → data s = data t → getData s x y = getData t x y.
Proof. unfold getData, width. by intros -> ->. Qed.

Lemma pixelColor_spec sin ulen u hue sat val t rgb t1 :
  pixelColor sin ulen u hue sat val t = Completed (rgb, t1) →
  mask t1 = mask t ∧ spriteOpts t1 = spriteOpts t ∧ data t1 = data t
  ∧ imageData t1 = imageData t ∧ stream (rng t1) = stream (rng t)
  ∧ (truthy (colored (spriteOpts t)) = false →
     rgb = if negb (strict_eq val Empty) && strict_eq val AlwaysBorder
           then {| r := 0; g := 0; b := 0 |} else {| r := 1; g := 1; b := 1 |}).
Proof.
  unfold pixelColor.
  destruct (negb (strict_eq val Empty)); simpl;
    [destruct (truthy (colored (spriteOpts t))); simpl|].
  - destruct (hslToRgb _ _ _) as [c|]; simpl; [|done].
    intros [= <- <-]. simpl. repeat split; done.
  - intros [= <- <-]. repeat split; done.
  - intros [= <- <-]. repeat split; done.
Qed.

Lemma pixelColor_plain_total sin ulen u hue sat val t :
  truthy (colored (spriteOpts t)) = false →
  ∃ rgb, pixelColor sin ulen u hue sat val t = Completed (rgb, t).
Proof.
  intros Hplain. unfold pixelColor. rewrite Hplain.
  destruct (negb (strict_eq val Empty)); simpl; eauto.
Qed.

Lemma colorize_inv_weaken s (vis vis' : nat → nat → Prop) t :
  (∀ x y, x < width s → y < height s → vis' x y → vis x y) →
  colorize_inv s vis t → colorize_inv s vis' t.
Proof.
  intros Hsub (Hm & Ho & Hd & Hr & Hk & Hc). repeat split; try done.
  - by apply Hc, Hsub.
  - by apply Hc, Hsub.
Qed.

Lemma colorize_inv_advance s vis t n :
  colorize_inv s vis t → colorize_inv s vis (advance n t).
Proof.
  intros (Hm & Ho & Hd & Hr & Hk & Hc).
  split; [done|]. split; [done|]. split; [done|]. split; [done|]. split; [done|].
  intros x y Hx Hy Hv. destruct (Hc x y Hx Hy Hv) as [Hs Hp]. split; [done|].
  intros Hplain. change (pixelAt (advance n t) x y) with (pixelAt t x y). by apply Hp.
Qed.

Section Colorize.

Variable sin : float → float.
Variable s : Sprite.
Variable isV : bool.
Let W := width s.
Let H := height s.
Let ulen := if isV then H else W.
Let vlen := if isV then W else H.

Lemma pixelIndex_cell u v :
  pixelIndex isV ulen vlen u v
  = ((if isV then u else v) * W + (if isV then v else u)) * 4.
Proof. unfold pixelIndex, ulen, vlen. by destruct isV. Qed.

(** One pixel more is coloured. *)
Lemma colorPixel_step (vis : nat → nat → Prop) hue sat u v t t' :
  u < ulen → v < vlen →
  colorize_inv s vis t →
  colorPixel sin isV ulen vlen hue sat u v t = Completed t' →
  colorize_inv s
    (fun x y => vis x y ∨ (x = (if isV then v else u) ∧ y = if isV then u else v)) t'.
Proof.
  intros Hu Hv (Hm & Ho & Hd & Hr & Hk & Hc).
  rewrite colorPixel_painted. cbv zeta. rewrite pixelIndex_cell.
  set (x0 := if isV then v else u). set (y0 := if isV then u else v).
  assert (Hx0 : x0 < W) by (unfold x0, ulen, vlen in *; by destruct isV).
  assert (Hy0 : y0 < H) by (unfold y0, ulen, vlen in *; by destruct isV).
  assert (Hval : (if isV then getData t v u else getData t u v) = getData s x0 y0).
  { unfold x0, y0. destruct isV; by apply getData_frame. }
  rewrite Hval.
  destruct (pixelColor _ _ _ _ _ _ _) as [[rgb t1]|e] eqn:Hpix; [|done].
  simpl. intros [= <-].
  apply pixelColor_spec in Hpix as (Hm1 & Ho1 & Hd1 & Hi1 & Hr1 & Hrgb).
  set (tm := default {| r := 1; g := 1; b := 1 |} (tint (spriteOpts t))).
  set (ne := negb (strict_eq (getData s x0 y0) Empty)).
  set (i0 := (y0 * W + x0) * 4).
  assert (Hbound : i0 + 4 ≤ W * H * 4) by (unfold i0; nia).
  split; [simpl; congruence|]. split; [simpl; congruence|].
  split; [simpl; congruence|]. split; [simpl; congruence|].
  split.
  - simpl. intros k Hsome.
    destruct (decide (k < i0 ∨ i0 + 4 ≤ k)) as [Hout|Hin].
    + rewrite painted_other in Hsome by done. rewrite Hi1 in Hsome. by apply Hk.
    + right. fold W H. lia.
  - fold W H. intros x y Hx Hy Hvis.
    destruct (decide (y * W + x = y0 * W + x0)) as [Heq|Hne].
    + apply cell_index_inj in Heq as [-> ->]; [|done..]. fold i0.
      split; [intros c Hc4; simpl; by apply painted_is_Some|].
      intros Hplain. unfold pixelAt, spriteImageData. simpl.
      rewrite width_with_imageData.
      replace (width t1) with W by (symmetry; apply width_mask; congruence).
      fold i0.
      destruct (painted_pixel (imageData t1) i0 rgb tm ne) as (-> & -> & -> & ->).
      rewrite Hrgb by congruence. unfold plainPixel, tm, ne. rewrite Ho.
      destruct (strict_eq (getData s x0 y0) Empty),
        (strict_eq (getData s x0 y0) AlwaysBorder); reflexivity.
    + assert (Hvis' : vis x y).
      { destruct Hvis as [Hvis|[-> ->]]; [done|]. by destruct Hne. }
      destruct (Hc x y Hx Hy Hvis') as [Hsome Hpix].
      assert (Hother : ∀ c, c < 4 →
        painted (imageData t1) i0 rgb tm ne !! ((y * W + x) * 4 + c)
        = imageData t !! ((y * W + x) * 4 + c)).
      { intros c Hc4. rewrite painted_other, Hi1; [done|]. unfold i0. lia. }
      split.
      * intros c Hc4. simpl. rewrite Hother by done. fold W in Hsome. by apply Hsome.
      * intros Hplain. rewrite <- Hpix by done.
        unfold pixelAt, spriteImageData, read. simpl.
        rewrite width_with_imageData.
        replace (width t1) with W by (symmetry; apply width_mask; congruence).
        replace (width t) with W by (symmetry; apply width_mask; congruence).
        pose proof (Hother 0) as H0. rewrite Nat.add_0_r in H0.
        rewrite H0, !Hother by lia. done.
Qed.

(** The inner loop colours the rest of its row or column. *)
Lemma inner_loop_inv hue sat u t t' :
  u < ulen →
  colorize_inv s (coloured isV u 0) t →
  for_loopM vlen (colorPixel sin isV ulen vlen hue sat u) t = Completed t' →
  colorize_inv s (coloured isV (S u) 0) t'.
Proof.
  intros Hu Hinv Hrun.
  apply (colorize_inv_weaken s (coloured isV u vlen)).
  { intros x y Hx Hy. unfold coloured, ulen, vlen, W, H in *. destruct isV; lia. }
  revert Hrun.
  apply (for_loopM_ind (fun v t => colorize_inv s (coloured isV u v) t)); [done|].
  intros v t1 t2 Hv Hinv1 Hstep.
  eapply colorize_inv_weaken; [|by eapply colorPixel_step].
  intros x y Hx Hy. unfold coloured. destruct isV; simpl; lia.
Qed.

Lemma gradientStep_inv sat u hs hs' :
  u < ulen →
  colorize_inv s (coloured isV u 0) hs.2 →
  gradientStep sin isV ulen vlen sat u hs = Completed hs' →
  colorize_inv s (coloured isV (S u) 0) hs'.2.
Proof.
  destruct hs as [hue t]. intros Hu Hinv. unfold gradientStep.
  pose proof (colorChange_closed_form hue t) as Hc. cbv zeta in Hc. rewrite Hc.
  match goal with |- context [if ?c then _ else _] => destruct c end;
    (destruct (for_loopM _ _ _) as [t'|e] eqn:Hrun; simpl; [|done]);
    intros [= <-]; simpl;
    eapply inner_loop_inv; [done| |done| done| |done];
    by apply colorize_inv_advance.
Qed.

Lemma outer_loop_inv sat hs hs' :
  colorize_inv s (coloured isV 0 0) hs.2 →
  for_loopM ulen (gradientStep sin isV ulen vlen sat) hs = Completed hs' →
  colorize_inv s (fun _ _ => True) hs'.2.
Proof.
  intros Hinv Hrun.
  apply (colorize_inv_weaken s (coloured isV ulen 0)).
  { intros x y Hx Hy _. unfold coloured, ulen, W, H in *. destruct isV; lia. }
  revert Hrun.
  apply (for_loopM_ind (fun u hs => colorize_inv s (coloured isV u 0) hs.2)); [done|].
  intros u hs1 hs2 Hu Hinv1 Hstep. by eapply gradientStep_inv.
Qed.

(** With [colored] off nothing throws. *)
Lemma colorPixel_plain_total hue sat u v t :
  truthy (colored (spriteOpts t)) = false →
  ∃ t', colorPixel sin isV ulen vlen hue sat u v t = Completed t'
    ∧ spriteOpts t' = spriteOpts t.
Proof.
  intros Hplain. rewrite colorPixel_painted. cbv zeta.
  destruct (pixelColor_plain_total sin ulen u hue sat
              (if isV then getData t v u else getData t u v) t Hplain) as [rgb ->].
  simpl. eauto.
Qed.

Lemma gradientStep_plain_total sat u hs :
  truthy (colored (spriteOpts hs.2)) = false →
  ∃ hs', gradientStep sin isV ulen vlen sat u hs = Completed hs'
    ∧ truthy (colored (spriteOpts hs'.2)) = false.
Proof.
  destruct hs as [hue t]. simpl. intros Hplain. unfold gradientStep.
  pose proof (colorChange_closed_form hue t) as Hc. cbv zeta in Hc. rewrite Hc.
  match goal with |- context [if ?c then _ else _] => destruct c end.
  - destruct (for_loopM_total
      (fun t' => truthy (colored (spriteOpts t')) = false) vlen
      (colorPixel sin isV ulen vlen (stream (rng t) (3 + drawn (rng t))) sat u)
      (advance 4 t)) as (t' & -> & Ht'); [done| |simpl; eauto].
    intros v t1 _ H1.
    destruct (colorPixel_plain_total (stream (rng t) (3 + drawn (rng t))) sat u v t1 H1)
      as (t2 & -> & Ho). exists t2. split; [done|]. by rewrite Ho.
  - destruct (for_loopM_total
      (fun t' => truthy (colored (spriteOpts t')) = false) vlen
      (colorPixel sin isV ulen vlen hue sat u)
      (advance 3 t)) as (t' & -> & Ht'); [done| |simpl; eauto].
    intros v t1 _ H1.
    destruct (colorPixel_plain_total hue sat u v t1 H1) as (t2 & -> & Ho).
    exists t2. split; [done|]. by rewrite Ho.
Qed.

End Colorize.

(** [calculateColors] leaves the grid alone and colours every cell. *)
Lemma calculateColors_spec sin s s' :
  calculateColors sin s = Completed s' →
  colorize_inv s (fun _ _ => True) s'.
Proof.
  unfold calculateColors. rewrite !next_advance. cbv zeta.
  set (isV := PrimFloat.ltb 0.5 _). set (sat := Math.max _ _).
  set (hue := stream _ _).
  destruct (for_loopM _ _ _) as [hs|e] eqn:Hrun; simpl; [|done].
  intros [= <-].
  eapply (outer_loop_inv sin s isV sat (hue, advance 1 (advance 1 (advance 1 s)))); [|exact Hrun].
  simpl. do 3 apply colorize_inv_advance.
  repeat split; try done.
  - by left.
  - unfold coloured in *. destruct isV; lia.
  - unfold coloured in *. destruct isV; lia.
Qed.

Lemma calculateColors_plain_total sin s :
  truthy (colored (spriteOpts s)) = false →
  ∃ s', calculateColors sin s = Completed s'.
Proof.
  intros Hplain. unfold calculateColors. rewrite !next_advance. cbv zeta.
  set (isV := PrimFloat.ltb 0.5 _). set (sat := Math.max _ _).
  set (hue := stream _ _).
  destruct (for_loopM_total
    (fun hs : float * Sprite => truthy (colored (spriteOpts hs.2)) = false)
    (if isV then height (advance 1 (advance 1 (advance 1 s)))
     else width (advance 1 (advance 1 (advance 1 s))))
    (gradientStep sin isV
       (if isV then height (advance 1 (advance 1 (advance 1 s)))
        else width (advance 1 (advance 1 (advance 1 s))))
       (if isV then width (advance 1 (advance 1 (advance 1 s)))
        else height (advance 1 (advance 1 (advance 1 s)))) sat)
    (hue, advance 1 (advance 1 (advance 1 s)))) as (hs & -> & _); [done| |simpl; eauto].
  intros u hs _ Hhs.
  apply (gradientStep_plain_total sin (advance 1 (advance 1 (advance 1 s))) isV sat u hs Hhs).
Qed.

(** ** The rounds of [calculateColors] *)

Lemma roundState_S sin s u :
  roundState sin s (S u)
  = roundState sin s u
    ≫= gradientStep sin (isVertical s) (ulenOf s) (vlenOf s) (saturationOf s) u.
Proof. reflexivity. Qed.

Lemma roundState_0 sin s :
  roundState sin s 0 = Completed (stream (rng s) (2 + drawn (rng s)), advance 3 s).
Proof. reflexivity. Qed.

Lemma calculateColors_rounds sin s :
  calculateColors sin s = snd <$> roundState sin s (ulenOf s).
Proof.
  unfold calculateColors, roundState. rewrite !next_advance. cbv zeta.
  by destruct (for_loopM _ _ _).
Qed.

Lemma framed_advance s t n : framed s t → framed s (advance n t).
Proof. by intros (? & ? & ? & ?). Qed.

Lemma framed_cell s t u v :
  framed s t →
  (if isVertical s then getData t v u else getData t u v) = gradientCell s u v.
Proof.
  intros (Hm & _ & Hd & _). unfold gradientCell.
  destruct (isVertical s); by apply getData_frame.
Qed.

Lemma pixelColor_draws sin ulen u hue sat val t rgb t1 :
  pixelColor sin ulen u hue sat val t = Completed (rgb, t1) →
  drawn (rng t1)
  = drawn (rng t)
    + (if truthy (colored (spriteOpts t)) && negb (strict_eq val Empty)
       then 1 else 0).
Proof.
  unfold pixelColor.
  destruct (negb (strict_eq val Empty)); simpl;
    [destruct (truthy (colored (spriteOpts t))); simpl|].
  - destruct (hslToRgb _ _ _) as [c|]; simpl; [|done].
    intros [= <- <-]. simpl. lia.
  - intros [= <- <-]. lia.
  - intros [= <- <-]. rewrite andb_false_r. lia.
Qed.

Lemma replay_app a l1 v1 l2 v2 :
  length v1 = length l1 →
  replay (replay a (zip l1 v1)) (zip l2 v2) = replay a (zip (l1 ++ l2) (v1 ++ v2)).
Proof.
  intros Hlen. unfold replay.
  rewrite zip_with_app by done. by rewrite foldl_app.
Qed.

Lemma painted_replay a i rgb tm val :
  ∃ vs, length vs = length (pixelWrites i val)
    ∧ painted a i rgb tm (negb (strict_eq val Empty))
      = replay a (zip (pixelWrites i val) vs).
Proof.
  unfold painted, scale, pixelWrites, replay.
  destruct (negb (strict_eq val Empty)); cbv zeta.
  - eexists [_; _; _; _; _; _; _]. split; reflexivity.
  - eexists [_; _; _; _]. split; reflexivity.
Qed.

Lemma colorPixel_run sin s hue sat u v t t' :
  framed s t →
  colorPixel sin (isVertical s) (ulenOf s) (vlenOf s) hue sat u v t = Completed t' →
  framed s t'
  ∧ drawn (rng t')
    = drawn (rng t)
      + (if truthy (colored (spriteOpts s))
            && negb (strict_eq (gradientCell s u v) Empty) then 1 else 0)
  ∧ ∃ vs,
      length vs
      = length (pixelWrites (pixelIndex (isVertical s) (ulenOf s) (vlenOf s) u v)
                  (gradientCell s u v))
      ∧ imageData t'
        = replay (imageData t)
            (zip (pixelWrites (pixelIndex (isVertical s) (ulenOf s) (vlenOf s) u v)
                    (gradientCell s u v)) vs).
Proof.
  intros Hf. pose proof Hf as (Hm & Ho & Hd & Hr).
  rewrite colorPixel_painted. cbv zeta. rewrite (framed_cell s t u v Hf).
  destruct (pixelColor _ _ _ _ _ _ _) as [[rgb t1]|e] eqn:Hpix; [|done].
  simpl. intros [= <-].
  pose proof (pixelColor_draws _ _ _ _ _ _ _ _ _ Hpix) as Hdraws.
  apply pixelColor_spec in Hpix as (Hm1 & Ho1 & Hd1 & Hi1 & Hr1 & _).
  split; [|split].
  - unfold framed. simpl. repeat split; congruence.
  - simpl. rewrite Hdraws. by rewrite Ho.
  - simpl. rewrite Hi1. apply painted_replay.
Qed.

Lemma inner_loop_run sin s hue sat u t t' :
  framed s t →
  for_loopM (vlenOf s)
    (colorPixel sin (isVertical s) (ulenOf s) (vlenOf s) hue sat u) t
  = Completed t' →
  framed s t'
  ∧ drawn (rng t') = drawn (rng t) + lineDraws s u
  ∧ ∃ vs, length vs = length (rowWrites s u)
      ∧ imageData t' = replay (imageData t) (zip (rowWrites s u) vs).
Proof.
  intros Hf. unfold lineDraws, rowWrites.
  set (p := fun v => negb (strict_eq (gradientCell s u v) Empty)).
  set (W := fun v => pixelWrites (pixelIndex (isVertical s) (ulenOf s) (vlenOf s) u v)
                       (gradientCell s u v)).
  pose (P := fun (v : nat) (a : Sprite) =>
    framed s a
    ∧ drawn (rng a)
      = drawn (rng t) + (if truthy (colored (spriteOpts s)) then count_upto p v else 0)
    ∧ ∃ vs, length vs = length (for_loop v (fun v l => l ++ W v) [])
        ∧ imageData a
          = replay (imageData t) (zip (for_loop v (fun v l => l ++ W v) []) vs)).
  intros Hrun.
  assert (HP : P (vlenOf s) t'); [|exact HP].
  revert Hrun. apply (for_loopM_ind P); subst P; cbv beta.
  - split; [done|]. split; [destruct (truthy _); simpl; lia|].
    exists []. split; reflexivity.
  - intros v a a' Hv (Hfa & Hdr & vs & Hlen & Hrep) Hstep.
    destruct (colorPixel_run _ _ _ _ _ _ _ _ Hfa Hstep) as (Hfa' & Hdr' & ws & Hwl & Hwr).
    split; [done|]. split.
    + rewrite Hdr', Hdr. simpl. fold (p v).
      destruct (truthy (colored (spriteOpts s))); simpl; [destruct (p v)|]; lia.
    + exists (vs ++ ws). simpl. split.
      * rewrite !length_app. fold (W v). unfold W at 2. lia.
      * rewrite Hwr, Hrep. fold (W v). by apply replay_app.
Qed.

Lemma gradientStep_run sin s u hue t hue' t' :
  framed s t →
  gradientStep sin (isVertical s) (ulenOf s) (vlenOf s) (saturationOf s) u (hue, t)
  = Completed (hue', t') →
  framed s t'
  ∧ hue' = (if newHueAt s (drawn (rng t))
            then stream (rng s) (drawn (rng t) + 3) else hue)
  ∧ drawn (rng t')
    = drawn (rng t) + 3 + (if newHueAt s (drawn (rng t)) then 1 else 0)
      + lineDraws s u
  ∧ ∃ vs, length vs = length (rowWrites s u)
      ∧ imageData t' = replay (imageData t) (zip (rowWrites s u) vs).
Proof.
  intros Hf. pose proof Hf as (Hm & Ho & Hd & Hr). unfold gradientStep.
  pose proof (colorChange_closed_form hue t) as Hc. cbv zeta in Hc. rewrite Hc.
  assert (Hnew : PrimFloat.ltb (1 - number (colorVariations (spriteOpts t)))
                   (Math.abs ((stream (rng t) (2 + drawn (rng t)) * 2 - 1) / 3))
                 = newHueAt s (drawn (rng t))).
  { unfold newHueAt, isNewColorAt. rewrite Ho, Hr. by rewrite (Nat.add_comm 2). }
  rewrite Hnew.
  destruct (newHueAt s (drawn (rng t))).
  - destruct (for_loopM _ _ _) as [a|e] eqn:Hrun; simpl; [|done].
    intros [= <- <-].
    destruct (inner_loop_run sin s _ _ u (advance 4 t) a
                (framed_advance _ _ 4 Hf) Hrun) as (Hfa & Hdr & Hw).
    split; [done|]. split; [rewrite Hr; f_equal; lia|].
    split; [rewrite Hdr; simpl; lia|done].
  - destruct (for_loopM _ _ _) as [a|e] eqn:Hrun; simpl; [|done].
    intros [= <- <-].
    destruct (inner_loop_run sin s _ _ u (advance 3 t) a
                (framed_advance _ _ 3 Hf) Hrun) as (Hfa & Hdr & Hw).
    split; [done|]. split; [done|].
    split; [rewrite Hdr; simpl; lia|done].
Qed.

(** The loop variables when round [u] begins, in closed form, and the
    assignments made so far. *)
Lemma rounds_run sin s u hue t :
  roundState sin s u = Completed (hue, t) →
  framed s t ∧ drawn (rng t) = roundStart s u ∧ hue = hueAt s u
  ∧ ∃ vs, length vs = length (for_loop u (fun u l => l ++ rowWrites s u) [])
      ∧ imageData t
        = replay (imageData s)
            (zip (for_loop u (fun u l => l ++ rowWrites s u) []) vs).
Proof.
  revert hue t. induction u as [|u IH]; intros hue t.
  - rewrite roundState_0. intros [= <- <-].
    split; [done|]. split; [simpl; lia|].
    split; [simpl; f_equal; lia|].
    exists []. split; reflexivity.
  - rewrite roundState_S.
    destruct (roundState sin s u) as [[h a]|e]; simpl; [|done].
    destruct (IH h a eq_refl) as (Hf & Hdr & Hh & vs & Hlen & Hrep).
    intros Hstep.
    destruct (gradientStep_run _ _ _ _ _ _ _ Hf Hstep) as (Hf' & Hh' & Hdr' & ws & Hwl & Hwr).
    split; [done|]. split; [simpl; rewrite Hdr', Hdr; done|].
    split; [simpl; rewrite Hh', Hdr, Hh; done|].
    exists (vs ++ ws). simpl. split.
    + rewrite !length_app. lia.
    + rewrite Hwr, Hrep. by apply replay_app.
Qed.

Lemma roundState_plain_total sin s u :
  truthy (colored (spriteOpts s)) = false →
  ∃ hue t, roundState sin s u = Completed (hue, t).
Proof.
  intros Hplain.
  assert (H : ∃ hs, roundState sin s u = Completed hs
                ∧ truthy (colored (spriteOpts hs.2)) = false).
  { induction u as [|u (hs & Hrun & Hhs)].
    - rewrite roundState_0. eexists. split; [reflexivity|done].
    - rewrite roundState_S, Hrun. simpl.
      apply (gradientStep_plain_total sin s (isVertical s) (saturationOf s) u hs Hhs). }
  destruct H as ([hue t] & Hrun & _). eauto.
Qed.

(** C4: [calculateColors] is its outer loop run to the end, and when round
    [u] of that loop begins, [n] numbers having been drawn, the round draws
    the numbers [n], [n + 1] and [n + 2] of the stream; [isNewColor] is
    [abs(lastDraw / 3)] for the third of them, [lastDraw = next() * 2 - 1],
    and the first two are drawn and dropped; [hue] becomes a fourth draw,
    number [n + 3], exactly when [isNewColor > 1 - colorVariations], and is
    kept otherwise. So the next round begins after three draws, one more
    for a new hue, and one for every pixel that draws its brightness; this
    is the recursion of [roundStart] and [hueAt]. With [colored] off every
    round is reached. *)
Theorem color_change_three_draws (sin : float → float) (s : Sprite) (u : nat) :
  u ≤ ulenOf s →
  calculateColors sin s = snd <$> roundState sin s (ulenOf s)
  ∧ (truthy (colored (spriteOpts s)) = false →
     ∃ hue t, roundState sin s u = Completed (hue, t))
  ∧ ∀ hue t, roundState sin s u = Completed (hue, t) →
      stream (rng t) = stream (rng s)
      ∧ drawn (rng t) = roundStart s u
      ∧ hue = hueAt s u
      ∧ (u < ulenOf s →
         let n := drawn (rng t) in
         let lastDraw := (stream (rng t) (n + 2) * 2 - 1)%float in
         let isNewColor := Math.abs (lastDraw / 3) in
         let changes :=
           PrimFloat.ltb (1 - number (colorVariations (spriteOpts t))) isNewColor in
         ∀ hue' t', roundState sin s (S u) = Completed (hue', t') →
           hue' = (if changes then stream (rng t) (n + 3) else hue)
           ∧ drawn (rng t')
             = n + 3 + (if changes then 1 else 0) + lineDraws s u).
Proof.
  intros Hu. split; [apply calculateColors_rounds|].
  split; [apply roundState_plain_total|].
  intros hue t Hrun.
  destruct (rounds_run _ _ _ _ _ Hrun) as (Hf & Hdr & Hh & _).
  pose proof Hf as (_ & Ho & _ & Hr).
  split; [done|]. split; [done|]. split; [done|].
  intros _ n lastDraw isNewColor changes hue' t' Hnext.
  rewrite roundState_S, Hrun in Hnext. simpl in Hnext.
  destruct (gradientStep_run _ _ _ _ _ _ _ Hf Hnext) as (_ & Hh' & Hdr' & _).
  assert (Hch : changes = newHueAt s n).
  { unfold changes, isNewColor, lastDraw, newHueAt, isNewColorAt. by rewrite Ho, Hr. }
  rewrite Hch, Hr. done.
Qed.

Lemma color_change_three_draws_witness :
  newHueAt (structure (fresh keyed "" body_mask varied_options))
    (roundStart (structure (fresh keyed "" body_mask varied_options)) 0) = false
  ∧ newHueAt (structure (fresh keyed "" body_mask varied_options))
      (roundStart (structure (fresh keyed "" body_mask varied_options)) 1) = true
  ∧ ∃ hue t,
      roundState host_sin (structure (fresh keyed "" body_mask varied_options)) 2
      = Completed (hue, t)
      ∧ drawn (rng t)
        = roundStart (structure (fresh keyed "" body_mask varied_options)) 2
      ∧ hue = hueAt (structure (fresh keyed "" body_mask varied_options)) 2.
Proof.
  split; [vm_compute; reflexivity|]. split; [vm_compute; reflexivity|].
  destruct (color_change_three_draws host_sin
              (structure (fresh keyed "" body_mask varied_options)) 2)
    as (_ & Htotal & Hround); [vm_compute; lia|].
  destruct Htotal as (hue & t & Hrun); [vm_compute; reflexivity|].
  exists hue, t. split; [exact Hrun|].
  destruct (Hround hue t Hrun) as (_ & Hdrawn & Hhue & _). by split.
Defined.

(** ** The stages before the colours *)

Lemma sample_frame x y s :
  mask (sample x y s).2 = mask s ∧ spriteOpts (sample x y s).2 = spriteOpts s
  ∧ imageData (sample x y s).2 = imageData s.
Proof.
  unfold sample, defaultSample.
  destruct (randomSampleCallback (spriteOpts s)); [done|].
  destruct (strict_eq _ RandomlyEmptyBody); [done|].
  by destruct (strict_eq _ RandomlyBorderBody).
Qed.

Lemma applyMask_frame s :
  mask (applyMask s) = mask s ∧ spriteOpts (applyMask s) = spriteOpts s
  ∧ imageData (applyMask s) = imageData s.
Proof.
  unfold applyMask.
  apply (for_loop_ind (fun _ t => mask t = mask s ∧ spriteOpts t = spriteOpts s
                                  ∧ imageData t = imageData s)); [done|].
  intros y t _ Ht.
  apply (for_loop_ind (fun _ t => mask t = mask s ∧ spriteOpts t = spriteOpts s
                                  ∧ imageData t = imageData s)); [done|].
  intros x t' _ Ht'. done.
Qed.

Lemma generateRandomSample_frame s :
  mask (generateRandomSample s) = mask s
  ∧ spriteOpts (generateRandomSample s) = spriteOpts s
  ∧ imageData (generateRandomSample s) = imageData s.
Proof.
  unfold generateRandomSample.
  apply (for_loop_ind (fun _ t => mask t = mask s ∧ spriteOpts t = spriteOpts s
                                  ∧ imageData t = imageData s)); [done|].
  intros y t _ Ht.
  apply (for_loop_ind (fun _ t => mask t = mask s ∧ spriteOpts t = spriteOpts s
                                  ∧ imageData t = imageData s)); [done|].
  intros x t' _ (Hm & Ho & Hi).
  pose proof (sample_frame x y t') as (Hm' & Ho' & Hi').
  destruct (sample x y t') as [v t'']. simpl in *. repeat split; congruence.
Qed.

(** The grid that reaches [calculateColors]: the frame is that of the
    object [init] started from, and the grid is symmetric along every
    mirrored axis. *)
Lemma structure_spec s :
  mask (structure s) = mask s ∧ spriteOpts (structure s) = spriteOpts s
  ∧ imageData (structure s) = imageData s
  ∧ (Mask.mirrorX (mask s) = true →
     ∀ x y, x < width s → y < height s →
       getData (structure s) (width s - 1 - x) y = getData (structure s) x y)
  ∧ (Mask.mirrorY (mask s) = true →
     ∀ x y, x < width s → y < height s →
       getData (structure s) x (height s - 1 - y) = getData (structure s) x y).
Proof.
  unfold structure. cbv zeta.
  pose proof (applyMask_frame s) as (Hm1 & Ho1 & Hi1).
  pose proof (generateRandomSample_frame (applyMask s)) as (Hm2 & Ho2 & Hi2).
  set (s2 := generateRandomSample (applyMask s)) in *.
  assert (Hm : mask s2 = mask s) by congruence.
  assert (Ho : spriteOpts s2 = spriteOpts s) by congruence.
  assert (Hi : imageData s2 = imageData s) by congruence.
  clearbody s2. clear Hm1 Ho1 Hi1 Hm2 Ho2 Hi2.
  assert (HW : width s2 = width s) by by apply width_mask.
  assert (HH : height s2 = height s) by by apply height_mask.
  rewrite Hm.
  (* after MirrorX *)
  assert (H3 : ∃ d, (if Mask.mirrorX (mask s) then mirrorX s2 else s2) = with_data s2 d
    ∧ (Mask.mirrorX (mask s) = true →
       ∀ x y, x < width s → y < height s →
         read d (y * width s + (width s - 1 - x)) = read d (y * width s + x))).
  { destruct (Mask.mirrorX (mask s)).
    - destruct (mirrorX_spec s2) as (d & -> & Hd). exists d. split; [done|].
      intros _ x y Hx Hy. rewrite HW, HH in Hd.
      rewrite !Hd by lia.
      assert (width s / 2 + width s / 2 ≤ width s ≤ width s / 2 + width s / 2 + 1).
      { pose proof (Nat.div_mod_eq (width s) 2).
        pose proof (Nat.mod_upper_bound (width s) 2). lia. }
      repeat case_decide; try lia; try (f_equal; lia).
    - exists (data s2). split; [by rewrite with_data_id|]. done. }
  destruct H3 as (d3 & -> & Hx3).
  change (mask (with_data s2 d3)) with (mask s2). rewrite Hm.
  (* after MirrorY *)
  assert (H4 : ∃ d, (if Mask.mirrorY (mask s) then mirrorY (with_data s2 d3)
                     else with_data s2 d3) = with_data s2 d
    ∧ (Mask.mirrorX (mask s) = true →
       ∀ x y, x < width s → y < height s →
         read d (y * width s + (width s - 1 - x)) = read d (y * width s + x))
    ∧ (Mask.mirrorY (mask s) = true →
       ∀ x y, x < width s → y < height s →
         read d ((height s - 1 - y) * width s + x) = read d (y * width s + x))).
  { destruct (Mask.mirrorY (mask s)).
    - destruct (mirrorY_spec (with_data s2 d3)) as (d & -> & Hd).
      exists d. split; [done|].
      change (width (with_data s2 d3)) with (width s2) in Hd.
      change (height (with_data s2 d3)) with (height s2) in Hd.
      rewrite HW, HH in Hd.
      assert (height s / 2 + height s / 2 ≤ height s ≤ height s / 2 + height s / 2 + 1).
      { pose proof (Nat.div_mod_eq (height s) 2).
        pose proof (Nat.mod_upper_bound (height s) 2). lia. }
      split.
      + intros Hmx x y Hx Hy. rewrite !Hd by lia.
        rewrite !getData_with_data, HW.
        case_decide; apply Hx3; done || lia.
      + intros _ x y Hx Hy. rewrite !Hd by lia.
        rewrite !getData_with_data, HW.
        repeat case_decide; try lia; try (repeat f_equal; lia).
    - exists d3. split; [done|]. split; [done|]. done. }
  destruct H4 as (d4 & -> & Hx4 & Hy4).
  (* after the edges *)
  destruct (generateEdges_run (with_data s2 d4)) as (_ & d5 & Hd5 & _).
  split; [by rewrite Hd5|]. split; [by rewrite Hd5|]. split; [by rewrite Hd5|].
  split.
  - intros Hmx x y Hx Hy.
    apply (generateEdges_symmetric (with_data s2 d4)
             (fun x y => (width s - 1 - x, y))).
    + change (width (with_data s2 d4)) with (width s2).
      change (height (with_data s2 d4)) with (height s2). rewrite HW, HH.
      simpl. intros x' y' Hx' Hy'. split; [lia|]. split; [done|]. f_equal. lia.
    + change (width (with_data s2 d4)) with (width s2).
      change (height (with_data s2 d4)) with (height s2). rewrite HW, HH.
      unfold adjacent. simpl. lia.
    + change (width (with_data s2 d4)) with (width s2).
      change (height (with_data s2 d4)) with (height s2). rewrite HW, HH.
      simpl. intros x' y' Hx' Hy'. rewrite !getData_with_data, HW. by apply Hx4.
    + change (width (with_data s2 d4)) with (width s2). by rewrite HW.
    + change (height (with_data s2 d4)) with (height s2). by rewrite HH.
  - intros Hmy x y Hx Hy.
    apply (generateEdges_symmetric (with_data s2 d4)
             (fun x y => (x, height s - 1 - y))).
    + change (width (with_data s2 d4)) with (width s2).
      change (height (with_data s2 d4)) with (height s2). rewrite HW, HH.
      simpl. intros x' y' Hx' Hy'. split; [done|]. split; [lia|]. f_equal. lia.
    + change (width (with_data s2 d4)) with (width s2).
      change (height (with_data s2 d4)) with (height s2). rewrite HW, HH.
      unfold adjacent. simpl. lia.
    + change (width (with_data s2 d4)) with (width s2).
      change (height (with_data s2 d4)) with (height s2). rewrite HW, HH.
      simpl. intros x' y' Hx' Hy'. rewrite !getData_with_data, HW. by apply Hy4.
    + change (width (with_data s2 d4)) with (width s2). by rewrite HW.
    + change (height (with_data s2 d4)) with (height s2). by rewrite HH.
Qed.

(** C5, as the code has it: on every grid the in-place pass of the source
    and the two-buffer pass end in the same grid. A write turns an empty
    cell into a border and nothing else, so it never changes which cells
    are body cells, and a neighbour that an earlier write already turned
    into a border is a border under both passes. *)
Theorem in_place_edges_equal_two_buffer (s : Sprite) :
  generateEdges s = generateEdges_two_buffer s.
Proof. apply generateEdges_run. Qed.

(** C5 as stated fails: no grid tells the in-place pass from the
    two-buffer pass. *)
Lemma no_directional_bias :
  ¬ ∃ s : Sprite, generateEdges s ≠ generateEdges_two_buffer s.
Proof. intros [s Hne]. apply Hne. apply generateEdges_run. Qed.

(** C8: in a grid of structural codes, a cell that was empty before the
    edge pass and is a border after it shares a side with a cell that held
    RandomlyEmptyBody, RandomlyBorderBody or AlwaysBorder when the pass
    began. *)
Theorem edge_containment (s : Sprite) (x y : nat) :
  (∀ x' y', x' < width s → y' < height s → isCode (getData s x' y') = true) →
  x < width s → y < height s →
  strict_eq (getData s x y) Empty = true →
  strict_eq (getData (generateEdges s) x y) AlwaysBorder = true →
  ∃ x' y', adjacent (width s) (height s) x y x' y'
    ∧ (strict_eq (getData s x' y') RandomlyEmptyBody = true
       ∨ strict_eq (getData s x' y') RandomlyBorderBody = true
       ∨ strict_eq (getData s x' y') AlwaysBorder = true).
Proof.
  intros Hcodes Hx Hy Hempty Hborder.
  destruct (generateEdges_run s) as (_ & d & Hd & Hsound & _).
  rewrite Hd, getData_with_data in Hborder.
  destruct (Hsound (y * width s + x)) as [Hsame|(_ & _ & x1 & y1 & x' & y' & Hk & Hadj & Hbody)].
  - assert (Hr : read d (y * width s + x) = getData s x y)
      by (unfold getData, read; by rewrite Hsame).
    rewrite Hr in Hborder. apply empty_not_border in Hempty. congruence.
  - assert (x = x1 ∧ y = y1) as [<- <-].
    { apply (cell_index_inj (width s)); [done| |done]. unfold adjacent in Hadj. lia. }
    exists x', y'. split; [done|].
    destruct (body_of_code (getData s x' y')) as [Hb|Hb]; [|done|by left|by right; left].
    apply Hcodes; unfold adjacent in Hadj; lia.
Qed.

Lemma edge_containment_witness :
  ∃ x' y', adjacent (width strip_sprite) (height strip_sprite) 0 0 x' y'
    ∧ (strict_eq (getData strip_sprite x' y') RandomlyEmptyBody = true
       ∨ strict_eq (getData strip_sprite x' y') RandomlyBorderBody = true
       ∨ strict_eq (getData strip_sprite x' y') AlwaysBorder = true).
Proof.
  apply (edge_containment strip_sprite 0 0).
  - intros x' y' Hx' Hy'.
    change (width strip_sprite) with 3 in Hx'.
    change (height strip_sprite) with 1 in Hy'.
    assert (y' = 0) as -> by lia.
    assert (x' = 0 ∨ x' = 1 ∨ x' = 2) as [->|[->| ->]] by lia; vm_compute; reflexivity.
  - vm_compute. lia.
  - vm_compute. lia.
  - vm_compute. reflexivity.
  - vm_compute. reflexivity.
Defined.

Lemma body_code_not_border v :
  strict_eq v RandomlyEmptyBody = true ∨ strict_eq v RandomlyBorderBody = true →
  strict_eq v AlwaysBorder = false.
Proof.
  destruct v as [|f]; simpl; [done|].
  rewrite !FloatAxioms.eqb_spec.
  assert (H1 : ∃ m e, Prim2SF RandomlyEmptyBody = S754_finite false m e)
    by (vm_compute; eauto).
  assert (H2 : ∃ m e, Prim2SF RandomlyBorderBody = S754_finite false m e)
    by (vm_compute; eauto).
  assert (H3 : ∃ m e, Prim2SF AlwaysBorder = S754_finite true m e)
    by (vm_compute; eauto).
  destruct H1 as (m1 & e1 & ->), H2 as (m2 & e2 & ->), H3 as (m3 & e3 & ->).
  destruct (Prim2SF f) as [[]|[]| |[] ? ?]; cbv [SFeqb SFcompare];
    intros [?|?]; congruence.
Qed.

Lemma plainPixel_untinted v :
  plainPixel None v = if strict_eq v AlwaysBorder then black else white.
Proof.
  unfold plainPixel.
  destruct (strict_eq v Empty) eqn:He.
  - by rewrite (empty_not_border v He).
  - by destruct (strict_eq v AlwaysBorder).
Qed.



(** ** Another [edgeBrightness] *)

Lemma sample_retune e x y s :
  sample x y (retune e s) = ((sample x y s).1, retune e (sample x y s).2).
Proof.
  unfold sample, defaultSample. simpl.
  destruct (randomSampleCallback (spriteOpts s)); [done|].
  change (getData (retune e s) x y) with (getData s x y).
  destruct (strict_eq _ RandomlyEmptyBody); [done|].
  by destruct (strict_eq _ RandomlyBorderBody).
Qed.

Lemma border_retune e src c x y s :
  border (retune e src) c x y (retune e s) = retune e (border src c x y s).
Proof.
  unfold border. change (getData (retune e src) x y) with (getData src x y).
  by destruct (c && _).
Qed.

Lemma edgeCell_retune e h w x y s :
  edgeCell h w x y (retune e s) = retune e (edgeCell h w x y s).
Proof.
  rewrite !edgeCell_border. change (getData (retune e s) x y) with (getData s x y).
  destruct (_ || _); [done|]. cbv zeta. by rewrite !border_retune.
Qed.

(** The stages before the colours never read [edgeBrightness]. *)
Lemma structure_retune e s : structure (retune e s) = retune e (structure s).
Proof.
  unfold structure. cbv zeta.
  assert (H1 : applyMask (retune e s) = retune e (applyMask s)).
  { unfold applyMask. simpl.
    apply for_loop_commute. intros y a. by apply for_loop_commute. }
  rewrite H1.
  assert (H2 : ∀ t, generateRandomSample (retune e t) = retune e (generateRandomSample t)).
  { intros t. unfold generateRandomSample.
    change (height (retune e t)) with (height t).
    change (width (retune e t)) with (width t).
    apply for_loop_commute. intros y a. apply for_loop_commute. intros x a'.
    rewrite sample_retune. by destruct (sample x y a'). }
  rewrite H2.
  set (s2 := generateRandomSample (applyMask s)).
  change (mask (retune e s2)) with (mask s2).
  assert (H3 : ∀ t, mirrorX (retune e t) = retune e (mirrorX t)).
  { intros t. unfold mirrorX.
    change (height (retune e t)) with (height t).
    change (width (retune e t)) with (width t).
    apply for_loop_commute. intros y a. by apply for_loop_commute. }
  assert (H4 : ∀ t, mirrorY (retune e t) = retune e (mirrorY t)).
  { intros t. unfold mirrorY.
    change (height (retune e t)) with (height t).
    change (width (retune e t)) with (width t).
    apply for_loop_commute. intros y a. by apply for_loop_commute. }
  assert (H5 : ∀ t, generateEdges (retune e t) = retune e (generateEdges t)).
  { intros t. unfold generateEdges.
    change (height (retune e t)) with (height t).
    change (width (retune e t)) with (width t).
    apply for_loop_commute. intros y a. apply for_loop_commute. intros x a'.
    apply edgeCell_retune. }
  destruct (Mask.mirrorX (mask s2)).
  - rewrite H3. change (mask (retune e (mirrorX s2))) with (mask (mirrorX s2)).
    destruct (Mask.mirrorY (mask (mirrorX s2))); by rewrite ?H4, H5.
  - change (mask (retune e s2)) with (mask s2).
    destruct (Mask.mirrorY (mask s2)); by rewrite ?H4, H5.
Qed.

Lemma colorPixel_retune sin e isV ulen vlen hue sat u v t :
  truthy (colored (spriteOpts t)) = false →
  colorPixel sin isV ulen vlen hue sat u v (retune e t)
  = retune e <$> colorPixel sin isV ulen vlen hue sat u v t
  ∧ ∀ t', colorPixel sin isV ulen vlen hue sat u v t = Completed t' →
      truthy (colored (spriteOpts t')) = false.
Proof.
  intros Hplain. split.
  - unfold colorPixel, pixelColor. cbv zeta. simpl. rewrite Hplain.
    change (getData (retune e t) v u) with (getData t v u).
    change (getData (retune e t) u v) with (getData t u v).
    destruct (negb (strict_eq (if isV then getData t v u else getData t u v) Empty));
      reflexivity.
  - intros t' Hrun. rewrite colorPixel_painted in Hrun. cbv zeta in Hrun.
    destruct (pixelColor _ _ _ _ _ _ _) as [[rgb t1]|err] eqn:Hpix; [|done].
    apply pixelColor_spec in Hpix as (_ & Ho & _).
    simpl in Hrun. injection Hrun as <-. simpl. by rewrite Ho.
Qed.

Lemma colorChange_retune e hue t :
  colorChange hue (retune e t)
  = ((colorChange hue t).1,
     ((colorChange hue t).2.1, retune e (colorChange hue t).2.2))
  ∧ spriteOpts (colorChange hue t).2.2 = spriteOpts t.
Proof.
  pose proof (colorChange_closed_form hue t) as Hc. cbv zeta in Hc.
  pose proof (colorChange_closed_form hue (retune e t)) as Hc'. cbv zeta in Hc'.
  rewrite Hc, Hc'.
  change (stream (rng (retune e t))) with (stream (rng t)).
  change (drawn (rng (retune e t))) with (drawn (rng t)).
  change (colorVariations (spriteOpts (retune e t)))
    with (colorVariations (spriteOpts t)).
  by destruct (PrimFloat.ltb _ _).
Qed.

Lemma gradientStep_retune sin e isV ulen vlen sat u hs :
  truthy (colored (spriteOpts hs.2)) = false →
  gradientStep sin isV ulen vlen sat u (hs.1, retune e hs.2)
  = (fun hs => (hs.1, retune e hs.2)) <$> gradientStep sin isV ulen vlen sat u hs
  ∧ ∀ hs', gradientStep sin isV ulen vlen sat u hs = Completed hs' →
      truthy (colored (spriteOpts hs'.2)) = false.
Proof.
  destruct hs as [hue t]. simpl. intros Hplain. unfold gradientStep.
  destruct (colorChange_retune e hue t) as [-> Ho].
  destruct (colorChange hue t) as [isNew [hue' t']]. simpl in *.
  destruct (for_loopM_commute
    (fun t' => truthy (colored (spriteOpts t')) = false) (retune e) vlen
    (colorPixel sin isV ulen vlen hue' sat u) t') as [-> HQ];
    [by rewrite Ho|intros; by apply colorPixel_retune|].
  destruct (for_loopM _ _ _) as [t''|err]; simpl; [|done].
  split; [done|]. intros hs' [= <-]. simpl. by apply HQ.
Qed.

(** With [colored] off, [calculateColors] never reads [edgeBrightness]. *)
Lemma calculateColors_retune sin e s :
  truthy (colored (spriteOpts s)) = false →
  calculateColors sin (retune e s) = retune e <$> calculateColors sin s.
Proof.
  intros Hplain. unfold calculateColors. rewrite !next_advance. cbv zeta.
  change (stream (rng (retune e s))) with (stream (rng s)).
  change (drawn (rng (retune e s))) with (drawn (rng s)).
  change (advance 1 (advance 1 (advance 1 (retune e s))))
    with (retune e (advance 1 (advance 1 (advance 1 s)))).
  set (s3 := advance 1 (advance 1 (advance 1 s))).
  change (saturation (spriteOpts (advance 1 (advance 1 (retune e s)))))
    with (saturation (spriteOpts (advance 1 (advance 1 s)))).
  change (height (retune e s3)) with (height s3).
  change (width (retune e s3)) with (width s3).
  set (isV := PrimFloat.ltb 0.5 _). set (sat := Math.max _ _).
  change (stream (rng (advance 1 (advance 1 (retune e s)))))
    with (stream (rng (advance 1 (advance 1 s)))).
  change (drawn (rng (advance 1 (advance 1 (retune e s)))))
    with (drawn (rng (advance 1 (advance 1 s)))).
  set (hue := stream _ _).
  set (ulen := if isV then height s3 else width s3).
  set (vlen := if isV then width s3 else height s3).
  destruct (for_loopM_commute
    (fun hs : float * Sprite => truthy (colored (spriteOpts hs.2)) = false)
    (fun hs => (hs.1, retune e hs.2)) ulen
    (gradientStep sin isV ulen vlen sat) (hue, s3)) as [Heq _]; [done| |].
  { intros u hs Hhs. destruct hs as [h t].
    apply (gradientStep_retune sin e isV ulen vlen sat u (h, t) Hhs). }
  simpl in Heq. rewrite Heq.
  destruct (for_loopM ulen (gradientStep sin isV ulen vlen sat) (hue, s3))
    as [[h t]|err]; reflexivity.
Qed.

(** ** The constructor *)

Lemma result_construct sin seedrandom entropy m o :
  result (construct sin seedrandom entropy m o)
  = Array (effectiveWidth m * effectiveHeight m)
    ≫= λ _, calculateColors sin (structure (fresh seedrandom entropy m o)).
Proof.
  unfold construct, Array. cbn [width height mask].
  fold (effectiveWidth m) (effectiveHeight m).
  by destruct (_ <=? _)%Z.
Qed.

Lemma Array_fits m : fits m → Array (effectiveWidth m * effectiveHeight m)
                              = Completed (effectiveWidth m * effectiveHeight m).
Proof. unfold Array, fits. intros Hfits. by rewrite (proj2 (Z.leb_le _ _) Hfits). Qed.


(** A construction that completed had a grid that fits, and its object is
    that of [calculateColors] on the structural grid. *)
Lemma result_completed sin seedrandom entropy m o s' :
  result (construct sin seedrandom entropy m o) = Completed s' →
  fits m
  ∧ calculateColors sin (structure (fresh seedrandom entropy m o)) = Completed s'.
Proof.
  rewrite result_construct. unfold Array, fits.
  destruct (Z.leb_spec (Z.of_nat (effectiveWidth m * effectiveHeight m))
              max_array_length); [done|discriminate].
Qed.

Lemma result_fits sin seedrandom entropy m o :
  fits m →
  result (construct sin seedrandom entropy m o)
  = calculateColors sin (structure (fresh seedrandom entropy m o)).
Proof. intros Hfits. by rewrite result_construct, Array_fits. Qed.

Lemma merge_plain o :
  truthy (colored o) = false → truthy (colored (merge defaults o)) = false.
Proof. simpl. by destruct (colored o) as [[]|]. Qed.

(** What a completed construction leaves: the grid [g] that reached
    [calculateColors], unchanged, and a buffer with every cell of [g]
    coloured and nothing else in it. *)
Lemma construct_inv sin seedrandom entropy m o s' :
  result (construct sin seedrandom entropy m o) = Completed s' →
  let g := structure (fresh seedrandom entropy m o) in
  mask g = m ∧ spriteOpts g = merge defaults o ∧ imageData g = ∅
  ∧ colorize_inv g (fun _ _ => True) s'.
Proof.
  intros [_ Hrun]%result_completed g.
  destruct (structure_spec (fresh seedrandom entropy m o)) as (Hm & Ho & Hi & _).
  split; [done|]. split; [done|]. split; [done|].
  by apply calculateColors_spec in Hrun.
Qed.

Lemma construct_plain_total sin seedrandom entropy m o :
  truthy (colored o) = false → fits m →
  ∃ s', result (construct sin seedrandom entropy m o) = Completed s'.
Proof.
  intros Hplain Hfits. rewrite result_fits by done.
  apply calculateColors_plain_total.
  destruct (structure_spec (fresh seedrandom entropy m o)) as (_ & -> & _).
  by apply merge_plain.
Qed.

(** With [colored] off, the pixel of every cell is the [plainPixel] of the
    cell. *)
Lemma construct_plain sin seedrandom entropy m o s' :
  truthy (colored o) = false →
  result (construct sin seedrandom entropy m o) = Completed s' →
  let g := structure (fresh seedrandom entropy m o) in
  width s' = width g ∧ height s' = height g ∧ mask g = m
  ∧ ∀ x y, x < width s' → y < height s' →
      getData s' x y = getData g x y
      ∧ pixelAt s' x y = plainPixel (tint o) (getData s' x y).
Proof.
  intros Hplain Hrun g.
  destruct (construct_inv _ _ _ _ _ _ Hrun) as (Hm & Ho & Hi & Hinv).
  fold g in Hm, Ho, Hi, Hinv.
  destruct Hinv as (Hm' & _ & Hd' & _ & _ & Hcells).
  assert (HW : width s' = width g) by by apply width_mask.
  assert (HH : height s' = height g) by by apply height_mask.
  split; [done|]. split; [done|]. split; [done|].
  intros x y Hx Hy.
  assert (Hget : getData s' x y = getData g x y) by by apply getData_frame.
  split; [done|]. rewrite Hget.
  destruct (Hcells x y) as [_ Hpix]; [lia|lia|done|].
  rewrite Hpix; [|rewrite Ho; by apply merge_plain].
  rewrite Ho. simpl. by destruct (tint o).
Qed.

(** ** Another callback *)





















(** C6: with [colored] off and no tint, the construction of a mask whose
    grid fits an array completes, the object keeps the mask and the grid of
    the structural stages, and every pixel of the effective grid is white,
    (255, 255, 255, 255), or black, (0, 0, 0, 255): white for a cell that
    holds RandomlyEmptyBody, RandomlyBorderBody or Empty, black for a cell
    that holds AlwaysBorder. *)
Theorem plain_palette
    (sin : float → float) (seedrandom : string → nat → float)
    (entropy : string) (m : Mask) (o : SpriteOptions) :
  truthy (colored o) = false → tint o = None → fits m →
  ∃ s', result (construct sin seedrandom entropy m o) = Completed s'
    ∧ mask s' = m
    ∧ ∀ x y, x < effectiveWidth m → y < effectiveHeight m →
        getData s' x y = getData (structure (fresh seedrandom entropy m o)) x y
        ∧ (strict_eq (getData s' x y) RandomlyEmptyBody = true
           ∨ strict_eq (getData s' x y) RandomlyBorderBody = true →
           pixelAt s' x y = white)
        ∧ (strict_eq (getData s' x y) AlwaysBorder = true → pixelAt s' x y = black)
        ∧ (strict_eq (getData s' x y) Empty = true → pixelAt s' x y = white)
        ∧ (pixelAt s' x y = white ∨ pixelAt s' x y = black).
Proof.
  intros Hplain Htint Hfits.
  destruct (construct_plain_total sin seedrandom entropy m o Hplain Hfits) as [s' Hrun].
  exists s'. split; [done|].
  destruct (construct_inv _ _ _ _ _ _ Hrun) as (Hm & _ & _ & Hm' & _).
  assert (Hmask : mask s' = m) by congruence.
  split; [done|]. intros x y Hx Hy.
  destruct (construct_plain _ _ _ _ _ _ Hplain Hrun) as (_ & _ & _ & Hpix).
  destruct (Hpix x y) as [Hget Hpixel].
  { unfold width. by rewrite Hmask. }
  { unfold height. by rewrite Hmask. }
  split; [done|]. rewrite Hpixel, Htint, plainPixel_untinted.
  repeat split.
  - intros Hbody. by rewrite (body_code_not_border _ Hbody).
  - by intros ->.
  - intros Hempty. by rewrite (empty_not_border _ Hempty).
  - destruct (strict_eq _ AlwaysBorder); [by right|by left].
Qed.

Lemma plain_palette_witness :
  ∃ s', result (construct host_sin (draws [0.75; 0.25]%float) "" body_mask
                  (seeded "mixel")) = Completed s'
    ∧ mask s' = body_mask
    ∧ ∀ x y, x < effectiveWidth body_mask → y < effectiveHeight body_mask →
        getData s' x y
        = getData (structure (fresh (draws [0.75; 0.25]%float) "" body_mask
                                (seeded "mixel"))) x y
        ∧ (strict_eq (getData s' x y) RandomlyEmptyBody = true
           ∨ strict_eq (getData s' x y) RandomlyBorderBody = true →
           pixelAt s' x y = white)
        ∧ (strict_eq (getData s' x y) AlwaysBorder = true → pixelAt s' x y = black)
        ∧ (strict_eq (getData s' x y) Empty = true → pixelAt s' x y = white)
        ∧ (pixelAt s' x y = white ∨ pixelAt s' x y = black).
Proof.
  apply (plain_palette host_sin (draws [0.75; 0.25]%float) "" body_mask
           (seeded "mixel")); [reflexivity|reflexivity|].
  vm_compute. discriminate.
Defined.

(** C2, as the code has it: with [colored] off (and any tint), a completed
    construction with [mirrorX] has in every row the same pixel in column
    [x] and in column [effectiveWidth - 1 - x], and with [mirrorY] the same
    pixel in rows [y] and [effectiveHeight - 1 - y] of every column. *)
Theorem plain_mirror_symmetry
    (sin : float → float) (seedrandom : string → nat → float)
    (entropy : string) (m : Mask) (o : SpriteOptions) (s' : Sprite) :
  truthy (colored o) = false →
  result (construct sin seedrandom entropy m o) = Completed s' →
  (Mask.mirrorX m = true →
   ∀ x y, x < width s' → y < height s' →
     pixelAt s' x y = pixelAt s' (width s' - 1 - x) y)
  ∧ (Mask.mirrorY m = true →
     ∀ x y, x < width s' → y < height s' →
       pixelAt s' x y = pixelAt s' x (height s' - 1 - y)).
Proof.
  intros Hplain Hrun.
  destruct (construct_plain _ _ _ _ _ _ Hplain Hrun) as (HW & HH & Hm & Hpix).
  destruct (structure_spec (fresh seedrandom entropy m o))
    as (Hmg & _ & _ & Hsx & Hsy).
  change (mask (fresh seedrandom entropy m o)) with m in Hsx, Hsy.
  assert (HWf : width (fresh seedrandom entropy m o) = width s').
  { rewrite HW. apply width_mask. by rewrite Hmg. }
  assert (HHf : height (fresh seedrandom entropy m o) = height s').
  { rewrite HH. apply height_mask. by rewrite Hmg. }
  rewrite HWf, HHf in Hsx, Hsy.
  split.
  - intros Hmx x y Hx Hy.
    destruct (Hpix x y Hx Hy) as [-> ->].
    destruct (Hpix (width s' - 1 - x) y) as [-> ->]; [lia|done|].
    by rewrite Hsx.
  - intros Hmy x y Hx Hy.
    destruct (Hpix x y Hx Hy) as [-> ->].
    destruct (Hpix x (height s' - 1 - y)) as [-> ->]; [done|lia|].
    by rewrite Hsy.
Qed.

(** C10: with [colored] off, two constructions that differ in
    [edgeBrightness] alone end the same way and, when they complete, with
    the same pixel buffer: no stage before [calculateColors] reads
    [edgeBrightness], and [calculateColors] reads it in the coloured branch
    only. *)
Theorem plain_buffer_ignores_edgeBrightness
    (sin : float → float) (seedrandom : string → nat → float)
    (entropy : string) (m : Mask) (o : SpriteOptions) (e1 e2 : option float) :
  truthy (colored o) = false →
  buffer (construct sin seedrandom entropy m (with_edgeBrightness o e1))
  = buffer (construct sin seedrandom entropy m (with_edgeBrightness o e2)).
Proof.
  intros Hplain.
  assert (Hbase : ∀ e,
    buffer (construct sin seedrandom entropy m (with_edgeBrightness o e))
    = buffer (construct sin seedrandom entropy m o)).
  { intros e. unfold buffer. rewrite !result_construct.
    destruct (Array _) as [n|err]; [simpl|done].
    change (fresh seedrandom entropy m (with_edgeBrightness o e))
      with (retune (e ∪ edgeBrightness defaults) (fresh seedrandom entropy m o)).
    rewrite structure_retune, calculateColors_retune.
    - by destruct (calculateColors _ _).
    - destruct (structure_spec (fresh seedrandom entropy m o)) as (_ & -> & _).
      by apply merge_plain. }
  by rewrite !Hbase.
Qed.

Lemma plain_buffer_ignores_edgeBrightness_witness :
  buffer (construct host_sin (draws [0.75; 0.25]%float) "" body_mask
            (with_edgeBrightness (seeded "mixel") (Some 0.1%float)))
  = buffer (construct host_sin (draws [0.75; 0.25]%float) "" body_mask
              (with_edgeBrightness (seeded "mixel") (Some 0.9%float))).
Proof.
  apply (plain_buffer_ignores_edgeBrightness host_sin (draws [0.75; 0.25]%float)
           "" body_mask (seeded "mixel") (Some 0.1%float) (Some 0.9%float)).
  reflexivity.
Defined.

Lemma plain_mirror_symmetry_witness :
  ∃ s', result (construct host_sin (draws [0.75; 0.25]%float) "" body_mask
                  (seeded "mixel")) = Completed s'
    ∧ (Mask.mirrorX body_mask = true →
       ∀ x y, x < width s' → y < height s' →
         pixelAt s' x y = pixelAt s' (width s' - 1 - x) y)
    ∧ (Mask.mirrorY body_mask = true →
       ∀ x y, x < width s' → y < height s' →
         pixelAt s' x y = pixelAt s' x (height s' - 1 - y)).
Proof.
  destruct (construct host_sin (draws [0.75; 0.25]%float) "" body_mask
              (seeded "mixel")) as [c [s'|e]] eqn:Hc.
  - exists s'. split; [reflexivity|].
    apply (plain_mirror_symmetry host_sin (draws [0.75; 0.25]%float) ""
             body_mask (seeded "mixel") s').
    + reflexivity.
    + rewrite Hc. reflexivity.
  - exfalso. apply (f_equal result) in Hc. vm_compute in Hc. discriminate.
Defined.

(** C2 as stated fails with [colored] on: every cell that is not empty
    draws its own brightness. The mask is one border cell mirrored into a
    row of two; the draws are 0.75 (vertical gradient), 0.5 (saturation
    0.25), 0 (hue), three times 0.5 (no new hue), then 0.25 for the left
    pixel and 0.5 for the right one, whose red bytes end on either side
    of 50. *)
Lemma colored_mirror_asymmetry :
  ∃ s', result (construct host_sin
                  (draws [0.75; 0.5; 0; 0.5; 0.5; 0.5; 0.25; 0.5]%float) ""
                  border_pair colored_options) = Completed s'
    ∧ Mask.mirrorX border_pair = true
    ∧ 0 < width s' / 2 ∧ 0 < height s'
    ∧ pixelAt s' 0 0 ≠ pixelAt s' (width s' - 1 - 0) 0.
Proof.
  eexists. split; [vm_compute; reflexivity|].
  split; [reflexivity|]. split; [vm_compute; lia|]. split; [vm_compute; lia|].
  intros Heq.
  apply (f_equal (fun p => match p with
                           | num f :: _ => PrimFloat.ltb f 50
                           | _ => false
                           end)) in Heq.
  vm_compute in Heq. discriminate.
Qed.




(** The effective length of a mirrored axis is even. *)
Lemma mirrored_length_even m :
  (Mask.mirrorX m = true → effectiveWidth m mod 2 = 0)
  ∧ (Mask.mirrorY m = true → effectiveHeight m mod 2 = 0).
Proof.
  unfold effectiveWidth, effectiveHeight.
  split; intros ->; apply Nat.Div0.mod_mul.
Qed.

(** The lines of the constructor, read off the mask. *)
Lemma console_construct sin seedrandom entropy m o :
  console (construct sin seedrandom entropy m o)
  = match Array (effectiveWidth m * effectiveHeight m) with
    | Threw _ => []
    | Completed _ =>
        (if negb (effectiveWidth m mod 2 =? 0) && Mask.mirrorX m
         then [widthWarning] else [])
        ++ (if negb (effectiveHeight m mod 2 =? 0) && Mask.mirrorY m
            then [heightWarning] else [])
    end.
Proof.
  unfold construct. cbn [width height mask].
  fold (effectiveWidth m) (effectiveHeight m).
  by destruct (Array _).
Qed.




(** * More of the class *)

(** ** The edge pass, continued *)

(** After the pass no body cell of the grid has an empty neighbour. *)
Lemma edges_closed s x y x' y' :
  adjacent (width s) (height s) x y x' y' →
  isBody (getData (generateEdges s) x y) = true →
  strict_eq (getData (generateEdges s) x' y') Empty = false.
Proof.
  intros Hadj.
  destruct (generateEdges_run s) as (_ & d & -> & Hsound & Hcomplete).
  rewrite !getData_with_data. intros Hbody.
  assert (Hb0 : isBody (getData s x y) = true).
  { destruct (Hsound (y * width s + x)) as [Hk|(_ & Hk & _)].
    - unfold getData, read in *. by rewrite <- Hk.
    - unfold read in Hbody. rewrite Hk in Hbody. vm_compute in Hbody. done. }
  destruct (Hsound (y' * width s + x')) as [Hk|(_ & Hk & _)].
  - destruct (strict_eq (read d (y' * width s + x')) Empty) eqn:He; [|done].
    assert (He0 : strict_eq (getData s x' y') Empty = true).
    { unfold getData, read in *. by rewrite <- Hk. }
    assert (Hab : d !! (y' * width s + x') = Some (num AlwaysBorder)).
    { apply (Hcomplete x y x' y'); [unfold adjacent in Hadj; lia|done..]. }
    unfold read in He. rewrite Hab in He. vm_compute in He. done.
  - unfold read. rewrite Hk. reflexivity.
Qed.

(** The edge pass touches nothing but the grid, and in the grid it only
    turns cells that hold Empty into AlwaysBorder: every other cell, inside
    the grid or not, keeps its value, and the body cells after the pass are
    the body cells before it. *)
Theorem edges_change_only_empty (s : Sprite) :
  mask (generateEdges s) = mask s
  ∧ spriteOpts (generateEdges s) = spriteOpts s
  ∧ imageData (generateEdges s) = imageData s
  ∧ rng (generateEdges s) = rng s
  ∧ ∀ x y,
      (getData (generateEdges s) x y = getData s x y
       ∨ (strict_eq (getData s x y) Empty = true
          ∧ getData (generateEdges s) x y = num AlwaysBorder))
      ∧ isBody (getData (generateEdges s) x y) = isBody (getData s x y).
Proof.
  destruct (generateEdges_run s) as (_ & d & -> & Hsound & _).
  do 4 (split; [reflexivity|]). intros x y. rewrite getData_with_data.
  destruct (Hsound (y * width s + x)) as [Hk|(He & Hk & _)].
  - assert (Hr : read d (y * width s + x) = getData s x y)
      by (unfold getData, read; by rewrite Hk).
    rewrite Hr. split; [by left|done].
  - assert (Hr : read d (y * width s + x) = num AlwaysBorder)
      by (unfold read; by rewrite Hk).
    rewrite Hr. split; [by right|].
    change (strict_eq (getData s x y) Empty = true) in He.
    unfold isBody. rewrite He, orb_true_r. reflexivity.
Qed.

(** After the edge pass no body cell touches an empty cell: of two cells of
    the grid that share a side, if one is a body cell the other does not
    hold Empty. *)
Theorem edges_leave_no_empty_neighbour (s : Sprite) (x y x' y' : nat) :
  adjacent (width s) (height s) x y x' y' →
  isBody (getData (generateEdges s) x y) = true →
  strict_eq (getData (generateEdges s) x' y') Empty = false.
Proof. apply edges_closed. Qed.

Lemma edges_leave_no_empty_neighbour_witness :
  strict_eq (getData (generateEdges strip_sprite) 0 0) Empty = false.
Proof.
  apply (edges_leave_no_empty_neighbour strip_sprite 1 0 0 0).
  - vm_compute. lia.
  - vm_compute. reflexivity.
Defined.

(** A second edge pass changes nothing. *)
Theorem generateEdges_idempotent (s : Sprite) :
  generateEdges (generateEdges s) = generateEdges s.
Proof.
  destruct (generateEdges_run (generateEdges s)) as (_ & d2 & Hd2 & Hsound & _).
  rewrite Hd2. rewrite <- (with_data_id (generateEdges s)) at 2. f_equal.
  apply map_eq. intros k.
  destruct (Hsound k) as [Hk|(He & _ & x & y & x' & y' & -> & Hadj & Hbody)]; [done|].
  assert (HW : width (generateEdges s) = width s).
  { destruct (generateEdges_run s) as (_ & d & -> & _). reflexivity. }
  assert (HH : height (generateEdges s) = height s).
  { destruct (generateEdges_run s) as (_ & d & -> & _). reflexivity. }
  rewrite HW, HH in Hadj.
  pose proof (edges_closed s x' y' x y (adjacent_sym _ _ _ _ _ _ Hadj) Hbody) as Hne.
  change (strict_eq (getData (generateEdges s) x y) Empty = true) in He.
  congruence.
Qed.

(** ** Mirroring, continued *)

Lemma half_bounds n : n / 2 + n / 2 ≤ n ≤ n / 2 + n / 2 + 1.
Proof.
  pose proof (Nat.div_mod_eq n 2). pose proof (Nat.mod_upper_bound n 2). lia.
Qed.

Lemma mirrorX_min s :
  ∃ d, mirrorX s = with_data s d
    ∧ ∀ x y, x < width s → y < height s →
        read d (y * width s + x) = getData s (x `min` (width s - 1 - x)) y.
Proof.
  destruct (mirrorX_spec s) as (d & Hd & Hcells). exists d. split; [done|].
  intros x y Hx Hy. rewrite Hcells by done.
  pose proof (half_bounds (width s)).
  case_decide; f_equal; lia.
Qed.

Lemma mirrorY_min s :
  ∃ d, mirrorY s = with_data s d
    ∧ ∀ x y, x < width s → y < height s →
        read d (y * width s + x) = getData s x (y `min` (height s - 1 - y)).
Proof.
  destruct (mirrorY_spec s) as (d & Hd & Hcells). exists d. split; [done|].
  intros x y Hx Hy. rewrite Hcells by done.
  pose proof (half_bounds (height s)).
  case_decide; f_equal; lia.
Qed.

(** [mirrorX] makes every row of the grid a palindrome and keeps its left
    half: the cell in column [x] becomes the old cell in column [x] or in
    column [width - 1 - x], whichever is further left (for an odd width the
    middle column stays). *)
Theorem mirrorX_cells (s : Sprite) (x y : nat) :
  x < width s → y < height s →
  getData (mirrorX s) x y = getData s (x `min` (width s - 1 - x)) y
  ∧ getData (mirrorX s) (width s - 1 - x) y = getData (mirrorX s) x y
  ∧ (x < width s / 2 → getData (mirrorX s) x y = getData s x y).
Proof.
  intros Hx Hy. destruct (mirrorX_min s) as (d & -> & Hd).
  rewrite !getData_with_data, !Hd by lia.
  split; [done|]. split; [f_equal; lia|].
  intros Hhalf. pose proof (half_bounds (width s)). f_equal. lia.
Qed.

Lemma mirrorX_cells_witness :
  getData (mirrorX mirror_sprite) 4 0
    = getData mirror_sprite (4 `min` (width mirror_sprite - 1 - 4)) 0
  ∧ getData (mirrorX mirror_sprite) (width mirror_sprite - 1 - 4) 0
    = getData (mirrorX mirror_sprite) 4 0
  ∧ (4 < width mirror_sprite / 2 →
     getData (mirrorX mirror_sprite) 4 0 = getData mirror_sprite 4 0).
Proof. apply (mirrorX_cells mirror_sprite 4 0); vm_compute; lia. Defined.

(** [mirrorY] does the same to the columns: the cell in row [y] becomes the
    old cell in row [y] or [height - 1 - y], whichever is further up. *)
Theorem mirrorY_cells (s : Sprite) (x y : nat) :
  x < width s → y < height s →
  getData (mirrorY s) x y = getData s x (y `min` (height s - 1 - y))
  ∧ getData (mirrorY s) x (height s - 1 - y) = getData (mirrorY s) x y
  ∧ (y < height s / 2 → getData (mirrorY s) x y = getData s x y).
Proof.
  intros Hx Hy. destruct (mirrorY_min s) as (d & -> & Hd).
  rewrite !getData_with_data, !Hd by lia.
  split; [done|]. split; [f_equal; lia|].
  intros Hhalf. pose proof (half_bounds (height s)). f_equal. lia.
Qed.

Lemma mirrorY_cells_witness :
  getData (mirrorY mirror_sprite) 1 1
    = getData mirror_sprite 1 (1 `min` (height mirror_sprite - 1 - 1))
  ∧ getData (mirrorY mirror_sprite) 1 (height mirror_sprite - 1 - 1)
    = getData (mirrorY mirror_sprite) 1 1
  ∧ (1 < height mirror_sprite / 2 →
     getData (mirrorY mirror_sprite) 1 1 = getData mirror_sprite 1 1).
Proof. apply (mirrorY_cells mirror_sprite 1 1); vm_compute; lia. Defined.

(** The two mirrors may run in either order: both orders leave in every
    cell of the grid the old cell of the top-left quarter it reflects to. *)
Theorem mirrors_commute (s : Sprite) (x y : nat) :
  x < width s → y < height s →
  getData (mirrorY (mirrorX s)) x y
    = getData s (x `min` (width s - 1 - x)) (y `min` (height s - 1 - y))
  ∧ getData (mirrorX (mirrorY s)) x y = getData (mirrorY (mirrorX s)) x y.
Proof.
  intros Hx Hy.
  destruct (mirrorX_min s) as (dx & Hdx & Hx1).
  destruct (mirrorY_min s) as (dy & Hdy & Hy1).
  destruct (mirrorY_min (mirrorX s)) as (dyx & Hdyx & Hyx).
  destruct (mirrorX_min (mirrorY s)) as (dxy & Hdxy & Hxy).
  rewrite Hdx in Hdyx, Hyx. rewrite Hdy in Hdxy, Hxy.
  change (width (with_data s dx)) with (width s) in Hyx.
  change (height (with_data s dx)) with (height s) in Hyx.
  change (width (with_data s dy)) with (width s) in Hxy.
  change (height (with_data s dy)) with (height s) in Hxy.
  rewrite Hdx, Hdy, Hdyx, Hdxy, !getData_with_data.
  change (width (with_data s dx)) with (width s).
  change (width (with_data s dy)) with (width s).
  rewrite Hyx, Hxy by done. rewrite !getData_with_data.
  rewrite Hx1, Hy1 by lia. done.
Qed.

Lemma mirrors_commute_witness :
  getData (mirrorY (mirrorX mirror_sprite)) 4 1
    = getData mirror_sprite (4 `min` (width mirror_sprite - 1 - 4))
        (1 `min` (height mirror_sprite - 1 - 1))
  ∧ getData (mirrorX (mirrorY mirror_sprite)) 4 1
    = getData (mirrorY (mirrorX mirror_sprite)) 4 1.
Proof. apply (mirrors_commute mirror_sprite 4 1); vm_compute; lia. Defined.

(** Mirroring a second time changes no cell of the grid. *)
Theorem mirrors_idempotent (s : Sprite) (x y : nat) :
  x < width s → y < height s →
  getData (mirrorX (mirrorX s)) x y = getData (mirrorX s) x y
  ∧ getData (mirrorY (mirrorY s)) x y = getData (mirrorY s) x y.
Proof.
  intros Hx Hy.
  destruct (mirrorX_min s) as (dx & Hdx & Hx1).
  destruct (mirrorY_min s) as (dy & Hdy & Hy1).
  destruct (mirrorX_min (mirrorX s)) as (dxx & Hdxx & Hxx).
  destruct (mirrorY_min (mirrorY s)) as (dyy & Hdyy & Hyy).
  rewrite Hdx in Hdxx, Hxx. rewrite Hdy in Hdyy, Hyy.
  change (width (with_data s dx)) with (width s) in Hxx.
  change (height (with_data s dx)) with (height s) in Hxx.
  change (width (with_data s dy)) with (width s) in Hyy.
  change (height (with_data s dy)) with (height s) in Hyy.
  rewrite Hdx, Hdy, Hdxx, Hdyy, !getData_with_data.
  change (width (with_data s dx)) with (width s).
  change (width (with_data s dy)) with (width s).
  rewrite Hxx, Hyy by done. rewrite !getData_with_data.
  rewrite !Hx1, !Hy1 by lia. split; f_equal; lia.
Qed.

Lemma mirrors_idempotent_witness :
  getData (mirrorX (mirrorX mirror_sprite)) 4 1 = getData (mirrorX mirror_sprite) 4 1
  ∧ getData (mirrorY (mirrorY mirror_sprite)) 4 1 = getData (mirrorY mirror_sprite) 4 1.
Proof. apply (mirrors_idempotent mirror_sprite 4 1); vm_compute; lia. Defined.


(** ** The mask and the sampling *)

Lemma border_body_not_empty_body v :
  strict_eq v RandomlyBorderBody = true → strict_eq v RandomlyEmptyBody = false.
Proof.
  destruct v as [|f]; simpl; [done|].
  rewrite !FloatAxioms.eqb_spec.
  assert (H1 : ∃ m, Prim2SF RandomlyEmptyBody = S754_finite false m (-52))
    by (vm_compute; eauto).
  assert (H2 : ∃ m, Prim2SF RandomlyBorderBody = S754_finite false m (-51))
    by (vm_compute; eauto).
  destruct H1 as (m1 & ->), H2 as (m2 & ->).
  destruct (Prim2SF f) as [[]|[]| |[] m e]; cbv [SFeqb SFcompare]; try congruence.
  destruct (Z.compare_spec e (-51)) as [->| |]; [|congruence..].
  intros _. reflexivity.
Qed.

(** [applyMask] copies the mask into the top-left region of the grid, cell
    by cell, and leaves every other cell and the rest of the object as they
    were; it draws no random number. *)
Theorem applyMask_cells (s : Sprite) (x y : nat) :
  x < width s →
  getData (applyMask s) x y
  = (if decide (x < Mask.width (mask s) ∧ y < Mask.height (mask s))
     then mask_cell (mask s) (y * Mask.width (mask s) + x)
     else getData s x y)
  ∧ mask (applyMask s) = mask s ∧ spriteOpts (applyMask s) = spriteOpts s
  ∧ imageData (applyMask s) = imageData s ∧ rng (applyMask s) = rng s.
Proof.
  intros Hx. unfold applyMask.
  set (mw := Mask.width (mask s)). set (mh := Mask.height (mask s)).
  assert (HmW : mw ≤ width s) by (unfold width; fold mw; destruct (Mask.mirrorX _); lia).
  pose (P := fun (Y : nat) (t : Sprite) => ∃ d, t = with_data s d
    ∧ ∀ x y, x < width s →
        read d (y * width s + x)
        = if decide (x < mw ∧ y < Y) then mask_cell (mask s) (y * mw + x)
          else getData s x y).
  assert (Hrun : P mh (for_loop mh (fun y s0 =>
      for_loop mw (fun x s1 => setData s1 x y (mask_cell (mask s1) (y * mw + x))) s0) s)).
  { apply (for_loop_ind P); subst P; cbv beta.
    - exists (data s). split; [by rewrite with_data_id|].
      intros x' y' Hx'. case_decide; [lia|done].
    - intros Y t HY (d & -> & Hd).
      pose (Q := fun (X : nat) (t : Sprite) => ∃ d', t = with_data s d'
        ∧ ∀ x y, x < width s →
            read d' (y * width s + x)
            = if decide (x < mw ∧ (y < Y ∨ (y = Y ∧ x < X)))
              then mask_cell (mask s) (y * mw + x) else getData s x y).
      assert (Hrow : Q mw (for_loop mw (fun x s1 =>
          setData s1 x Y (mask_cell (mask s1) (Y * mw + x))) (with_data s d))).
      { apply (for_loop_ind Q); subst Q; cbv beta.
        - exists d. split; [done|]. intros x' y' Hx'. rewrite Hd by done.
          repeat case_decide; first [done|lia].
        - intros X t HX (d' & -> & Hd'). rewrite setData_with_data.
          eexists. split; [done|]. intros x' y' Hx'.
          destruct (decide (Y * width s + X = y' * width s + x')) as [Heq|Hne].
          + rewrite <- Heq, read_write_eq.
            apply cell_index_inj in Heq as [<- <-]; [|lia..].
            case_decide; [done|lia].
          + rewrite read_write_ne by done. rewrite Hd' by done.
            assert (¬ (x' = X ∧ y' = Y)) by (intros [-> ->]; done).
            repeat case_decide; first [done|lia]. }
      destruct Hrow as (d' & -> & Hd'). exists d'. split; [done|].
      intros x' y' Hx'. rewrite Hd' by done.
      repeat case_decide; first [done|lia]. }
  destruct Hrun as (d & -> & Hd). rewrite getData_with_data.
  split; [by apply Hd|done].
Qed.

Lemma applyMask_cells_witness :
  getData (applyMask (blank body_mask)) 4 1
  = (if decide (4 < Mask.width (mask (blank body_mask))
                ∧ 1 < Mask.height (mask (blank body_mask)))
     then mask_cell (mask (blank body_mask))
            (1 * Mask.width (mask (blank body_mask)) + 4)
     else getData (blank body_mask) 4 1)
  ∧ mask (applyMask (blank body_mask)) = mask (blank body_mask)
  ∧ spriteOpts (applyMask (blank body_mask)) = spriteOpts (blank body_mask)
  ∧ imageData (applyMask (blank body_mask)) = imageData (blank body_mask)
  ∧ rng (applyMask (blank body_mask)) = rng (blank body_mask).
Proof. apply (applyMask_cells (blank body_mask) 4 1). vm_compute. lia. Defined.

(** With a callback of the caller, [generateRandomSample] stores
    [callback(x, y)] in every cell of the grid and draws no random number:
    the generator is as it was. *)
Theorem callback_sampling (s : Sprite) (callback : nat → nat → value) (x y : nat) :
  randomSampleCallback (spriteOpts s) = Some callback →
  x < width s → y < height s →
  getData (generateRandomSample s) x y = callback x y
  ∧ rng (generateRandomSample s) = rng s.
Proof.
  intros Hcb Hx Hy. unfold generateRandomSample.
  pose (P := fun (Y : nat) (t : Sprite) => ∃ d, t = with_data s d
    ∧ ∀ x y, x < width s → y < Y → read d (y * width s + x) = callback x y).
  assert (Hrun : P (height s) (for_loop (height s) (fun y s0 =>
      for_loop (width s) (fun x s1 =>
        let '(v, s2) := sample x y s1 in setData s2 x y v) s0) s)).
  { apply (for_loop_ind P); subst P; cbv beta.
    - exists (data s). split; [by rewrite with_data_id|]. lia.
    - intros Y t HY (d & -> & Hd).
      pose (Q := fun (X : nat) (t : Sprite) => ∃ d', t = with_data s d'
        ∧ ∀ x y, x < width s → (y < Y ∨ (y = Y ∧ x < X)) →
            read d' (y * width s + x) = callback x y).
      assert (Hrow : Q (width s) (for_loop (width s) (fun x s1 =>
          let '(v, s2) := sample x Y s1 in setData s2 x Y v) (with_data s d))).
      { apply (for_loop_ind Q); subst Q; cbv beta.
        - exists d. split; [done|]. intros x' y' Hx' [?|[_ ?]]; [by apply Hd|lia].
        - intros X t HX (d' & -> & Hd'). unfold sample. simpl. rewrite Hcb.
          rewrite setData_with_data. eexists. split; [done|].
          intros x' y' Hx' Hy'.
          destruct (decide (Y * width s + X = y' * width s + x')) as [Heq|Hne].
          + rewrite <- Heq, read_write_eq.
            by apply cell_index_inj in Heq as [<- <-]; [|lia..].
          + rewrite read_write_ne by done. apply Hd'; [done|].
            destruct Hy' as [?|[-> ?]]; [by left|]. right. split; [done|].
            assert (x' ≠ X) by (intros ->; done). lia. }
      destruct Hrow as (d' & -> & Hd'). exists d'. split; [done|].
      intros x' y' Hx' Hy'. apply Hd'; [done|]. lia. }
  destruct Hrun as (d & -> & Hd). rewrite getData_with_data.
  split; [by apply Hd|done].
Qed.

Lemma callback_sampling_witness :
  getData (generateRandomSample clearing_sprite) 1 0 = num Empty
  ∧ rng (generateRandomSample clearing_sprite) = rng clearing_sprite.
Proof.
  apply (callback_sampling clearing_sprite (fun _ _ => num Empty) 1 0).
  - reflexivity.
  - vm_compute. lia.
  - vm_compute. lia.
Defined.

Lemma sampled_more s n n' v v' : n ≤ n' → sampled s n v v' → sampled s n' v v'.
Proof.
  intros Hn (H1 & H2 & H3). split; [|done].
  intros Hv. destruct (H1 Hv) as (k & Hk & ->). exists k. split; [lia|done].
Qed.

(** The default callback on one cell of an object that has drawn [n]
    numbers in this stage. *)
Lemma defaultSample_sampled s d n x y :
  ∃ n', n ≤ n' ≤ S n
    ∧ (defaultSample x y (advance n (with_data s d))).2
      = advance n' (with_data s d)
    ∧ sampled s n' (read d (y * width s + x))
        (defaultSample x y (advance n (with_data s d))).1.
Proof.
  unfold defaultSample.
  change (getData (advance n (with_data s d)) x y) with (read d (y * width s + x)).
  set (v := read d (y * width s + x)).
  destruct (strict_eq v RandomlyEmptyBody) eqn:H1.
  - exists (S n). split; [lia|]. split; [reflexivity|]. simpl.
    split; [|split].
    + intros _. exists n. split; [lia|done].
    + intros H2. apply border_body_not_empty_body in H2. congruence.
    + congruence.
  - destruct (strict_eq v RandomlyBorderBody) eqn:H2.
    + exists (S n). split; [lia|]. split; [reflexivity|]. simpl.
      split; [congruence|]. split; [|congruence].
      intros _. destruct (PrimFloat.ltb _ _); [by left|by right].
    + exists n. split; [lia|]. split; [reflexivity|]. simpl.
      split; [congruence|]. split; [congruence|done].
Qed.

(** With the default callback, [generateRandomSample] leaves every cell
    that holds neither RandomlyEmptyBody nor RandomlyBorderBody as it is
    (AlwaysBorder, Empty, [undefined], any other number); a cell that held
    RandomlyBorderBody holds RandomlyEmptyBody or AlwaysBorder; a cell that
    held RandomlyEmptyBody holds that value times the rounding of one of
    the numbers drawn in this stage. The stage draws at most one number per
    cell, from the same stream. *)
Theorem default_sampling (s : Sprite) (x y : nat) :
  randomSampleCallback (spriteOpts s) = None →
  x < width s → y < height s →
  sampled s (drawn (rng (generateRandomSample s)) - drawn (rng s))
    (getData s x y) (getData (generateRandomSample s) x y)
  ∧ stream (rng (generateRandomSample s)) = stream (rng s)
  ∧ drawn (rng s) ≤ drawn (rng (generateRandomSample s))
    ≤ drawn (rng s) + width s * height s.
Proof.
  intros Hcb Hx Hy. unfold generateRandomSample.
  pose (P := fun (Y : nat) (t : Sprite) => ∃ d n, t = advance n (with_data s d)
    ∧ n ≤ Y * width s
    ∧ ∀ x y, x < width s →
        if decide (y < Y) then sampled s n (getData s x y) (read d (y * width s + x))
        else read d (y * width s + x) = getData s x y).
  assert (Hrun : P (height s) (for_loop (height s) (fun y s0 =>
      for_loop (width s) (fun x s1 =>
        let '(v, s2) := sample x y s1 in setData s2 x y v) s0) s)).
  { apply (for_loop_ind P); subst P; cbv beta.
    - exists (data s), 0. split; [by destruct s as [? ? ? ? []]|]. split; [lia|].
      intros x' y' Hx'. case_decide; [lia|done].
    - intros Y t HY (d & n & -> & Hn & Hd).
      pose (Q := fun (X : nat) (t : Sprite) => ∃ d' n', t = advance n' (with_data s d')
        ∧ n' ≤ Y * width s + X
        ∧ ∀ x y, x < width s →
            if decide (y < Y ∨ (y = Y ∧ x < X))
            then sampled s n' (getData s x y) (read d' (y * width s + x))
            else read d' (y * width s + x) = getData s x y).
      assert (Hrow : Q (width s) (for_loop (width s) (fun x s1 =>
          let '(v, s2) := sample x Y s1 in setData s2 x Y v)
          (advance n (with_data s d)))).
      { apply (for_loop_ind Q); subst Q; cbv beta.
        - exists d, n. split; [done|]. split; [lia|]. intros x' y' Hx'.
          specialize (Hd x' y' Hx'). repeat case_decide; first [done|lia].
        - intros X t HX (d' & n' & -> & Hn' & Hd').
          unfold sample.
          change (randomSampleCallback (spriteOpts (advance n' (with_data s d'))))
            with (randomSampleCallback (spriteOpts s)).
          rewrite Hcb.
          destruct (defaultSample_sampled s d' n' X Y) as (n2 & Hn2 & Ht & Hv).
          destruct (defaultSample X Y (advance n' (with_data s d'))) as [v t'].
          simpl in Ht, Hv. subst t'.
          exists (write d' (Y * width s + X) v), n2.
          split; [reflexivity|]. split; [lia|]. intros x' y' Hx'.
          specialize (Hd' x' y' Hx').
          destruct (decide (Y * width s + X = y' * width s + x')) as [Heq|Hne].
          + rewrite <- Heq, read_write_eq.
            apply cell_index_inj in Heq as [<- <-]; [|lia..].
            repeat case_decide; try lia.
            by rewrite Hd' in Hv.
          + rewrite read_write_ne by done.
            assert (¬ (x' = X ∧ y' = Y)) by (intros [-> ->]; done).
            repeat case_decide; try lia; try done.
            apply (sampled_more s n'); [lia|done]. }
      destruct Hrow as (d' & n' & -> & Hn' & Hd'). exists d', n'.
      split; [done|]. split; [lia|]. intros x' y' Hx'.
      specialize (Hd' x' y' Hx'). repeat case_decide; first [done|lia]. }
  destruct Hrun as (d & n & -> & Hn & Hd).
  change (getData (advance n (with_data s d)) x y) with (read d (y * width s + x)).
  change (drawn (rng (advance n (with_data s d)))) with (n + drawn (rng s)).
  replace (n + drawn (rng s) - drawn (rng s)) with n by lia.
  specialize (Hd x y Hx). case_decide; [|lia].
  split; [done|]. split; [reflexivity|]. lia.
Qed.

Lemma default_sampling_witness :
  sampled strip_sprite
    (drawn (rng (generateRandomSample strip_sprite)) - drawn (rng strip_sprite))
    (getData strip_sprite 1 0) (getData (generateRandomSample strip_sprite) 1 0)
  ∧ stream (rng (generateRandomSample strip_sprite)) = stream (rng strip_sprite)
  ∧ drawn (rng strip_sprite) ≤ drawn (rng (generateRandomSample strip_sprite))
    ≤ drawn (rng strip_sprite) + width strip_sprite * height strip_sprite.
Proof.
  apply (default_sampling strip_sprite 1 0).
  - reflexivity.
  - vm_compute. lia.
  - vm_compute. lia.
Defined.


(** ** The colours, continued *)

(** The loops of [calculateColors] keep whatever the colouring of one pixel
    keeps. *)
Section ColorizeAny.

Variable sin : float → float.
Variable s : Sprite.
Variable Inv : (nat → nat → Prop) → Sprite → Prop.

Hypothesis Inv_weaken : ∀ (vis vis' : nat → nat → Prop) t,
  (∀ x y, x < width s → y < height s → vis' x y → vis x y) →
  Inv vis t → Inv vis' t.
Hypothesis Inv_advance : ∀ vis t n, Inv vis t → Inv vis (advance n t).
Hypothesis Inv_step : ∀ (isV : bool) (vis : nat → nat → Prop) hue sat u v t t',
  u < (if isV then height s else width s) →
  v < (if isV then width s else height s) →
  Inv vis t →
  colorPixel sin isV (if isV then height s else width s)
    (if isV then width s else height s) hue sat u v t = Completed t' →
  Inv (fun x y => vis x y ∨ (x = (if isV then v else u) ∧ y = if isV then u else v)) t'.

Lemma calculateColors_keeps s' :
  Inv (fun _ _ => False) s →
  calculateColors sin s = Completed s' →
  Inv (fun _ _ => True) s'.
Proof.
  intros Hstart. unfold calculateColors. rewrite !next_advance. cbv zeta.
  set (isV := PrimFloat.ltb 0.5 _). set (sat := Math.max _ _).
  set (hue := stream _ _).
  set (s3 := advance 1 (advance 1 (advance 1 s))).
  change (height s3) with (height s). change (width s3) with (width s).
  set (ulen := if isV then height s else width s).
  set (vlen := if isV then width s else height s).
  destruct (for_loopM _ _ _) as [hs|e] eqn:Hrun; simpl; [|done].
  intros [= <-].
  apply (Inv_weaken (coloured isV ulen 0)).
  { intros x y Hx Hy _. unfold coloured, ulen in *. destruct isV; lia. }
  revert Hrun.
  apply (for_loopM_ind (fun u (hs : float * Sprite) => Inv (coloured isV u 0) hs.2)).
  { simpl. unfold s3. do 3 apply Inv_advance.
    apply (Inv_weaken (fun _ _ => False)); [|done].
    intros x y _ _. unfold coloured. destruct isV; lia. }
  intros u [h t] hs' Hu Hinv. simpl in Hinv. unfold gradientStep.
  pose proof (colorChange_closed_form h t) as Hc. cbv zeta in Hc. rewrite Hc.
  assert (Hinner : ∀ hue' t0 t1,
    Inv (coloured isV u 0) t0 →
    for_loopM vlen (colorPixel sin isV ulen vlen hue' sat u) t0 = Completed t1 →
    Inv (coloured isV (S u) 0) t1).
  { intros hue' t0 t1 H0 Hloop.
    apply (Inv_weaken (coloured isV u vlen)).
    { intros x y Hx Hy. unfold coloured, ulen, vlen in *. destruct isV; lia. }
    revert Hloop.
    apply (for_loopM_ind (fun v t => Inv (coloured isV u v) t)); [done|].
    intros v ta tb Hv Ha Hstep.
    eapply Inv_weaken; [|by eapply (Inv_step isV)].
    intros x y Hx Hy. unfold coloured. destruct isV; simpl; lia. }
  match goal with |- context [if ?c then _ else _] => destruct c end;
    (destruct (for_loopM _ _ _) as [t'|e] eqn:Hloop; simpl; [|done]);
    intros [= <-]; simpl; (eapply Hinner; [|exact Hloop]); by apply Inv_advance.
Qed.

End ColorizeAny.

Lemma pixelColor_empty sin ulen u hue sat val t :
  strict_eq val Empty = true →
  pixelColor sin ulen u hue sat val t = Completed ({| r := 1; g := 1; b := 1 |}, t).
Proof. intros He. unfold pixelColor. by rewrite He. Qed.

Lemma pixels_inv_step sin s (isV : bool) (vis : nat → nat → Prop) hue sat u v t t' :
  u < (if isV then height s else width s) →
  v < (if isV then width s else height s) →
  pixels_inv s vis t →
  colorPixel sin isV (if isV then height s else width s)
    (if isV then width s else height s) hue sat u v t = Completed t' →
  pixels_inv s
    (fun x y => vis x y ∨ (x = (if isV then v else u) ∧ y = if isV then u else v)) t'.
Proof.
  intros Hu Hv (Hm & Ho & Hd & Hc).
  rewrite colorPixel_painted. cbv zeta. rewrite pixelIndex_cell.
  set (W := width s) in *. set (H := height s) in *.
  set (x0 := if isV then v else u). set (y0 := if isV then u else v).
  assert (Hx0 : x0 < W) by (unfold x0; by destruct isV).
  assert (Hy0 : y0 < H) by (unfold y0; by destruct isV).
  assert (Hval : (if isV then getData t v u else getData t u v) = getData s x0 y0).
  { unfold x0, y0. destruct isV; by apply getData_frame. }
  rewrite Hval.
  destruct (pixelColor _ _ _ _ _ _ _) as [[rgb t1]|e] eqn:Hpix; [|done].
  simpl. intros [= <-].
  pose proof Hpix as Hpix'.
  apply pixelColor_spec in Hpix as (Hm1 & Ho1 & Hd1 & Hi1 & _ & _).
  set (tm := default {| r := 1; g := 1; b := 1 |} (tint (spriteOpts t))).
  set (ne := negb (strict_eq (getData s x0 y0) Empty)).
  set (i0 := (y0 * W + x0) * 4).
  split; [simpl; congruence|]. split; [simpl; congruence|].
  split; [simpl; congruence|].
  intros x y Hx Hy Hvis.
  destruct (decide (y * W + x = y0 * W + x0)) as [Heq|Hne].
  - apply cell_index_inj in Heq as [-> ->]; [|done..]. fold i0.
    destruct (painted_pixel (imageData t1) i0 rgb tm ne) as (H0 & H1 & H2 & H3).
    split; [simpl; exact H3|].
    intros He. unfold pixelAt, spriteImageData. simpl.
    rewrite width_with_imageData.
    replace (width t1) with W by (symmetry; apply width_mask; congruence).
    fold i0. rewrite H0, H1, H2, H3.
    rewrite (pixelColor_empty _ _ _ _ _ _ t He) in Hpix'.
    injection Hpix' as <- _. unfold ne. rewrite He. reflexivity.
  - assert (Hvis' : vis x y).
    { destruct Hvis as [Hvis|[-> ->]]; [done|]. by destruct Hne. }
    destruct (Hc x y Hx Hy Hvis') as [Halpha Hwhite].
    assert (Hother : ∀ c, c < 4 →
      read (painted (imageData t1) i0 rgb tm ne) ((y * W + x) * 4 + c)
      = read (imageData t) ((y * W + x) * 4 + c)).
    { intros c Hc4. unfold read. rewrite painted_other, Hi1; [done|]. unfold i0. lia. }
    split.
    + simpl. rewrite Hother by lia. exact Halpha.
    + intros He. rewrite <- Hwhite by done.
      unfold pixelAt, spriteImageData. simpl.
      rewrite width_with_imageData.
      replace (width t1) with W by (symmetry; apply width_mask; congruence).
      replace (width t) with W by (symmetry; apply width_mask; congruence).
      pose proof (Hother 0) as H0. rewrite Nat.add_0_r in H0.
      rewrite H0, !Hother by lia. done.
Qed.

Lemma calculateColors_pixels sin s s' :
  calculateColors sin s = Completed s' → pixels_inv s (fun _ _ => True) s'.
Proof.
  apply (calculateColors_keeps sin s (pixels_inv s)).
  - intros vis vis' t Hsub (Hm & Ho & Hd & Hc).
    split; [done|]. split; [done|]. split; [done|].
    intros x y Hx Hy Hv. by apply Hc, Hsub.
  - intros vis t n (Hm & Ho & Hd & Hc).
    split; [done|]. split; [done|]. split; [done|]. exact Hc.
  - intros isV vis hue sat u v t t'. apply pixels_inv_step.
  - split; [done|]. split; [done|]. split; [done|]. intros x y _ _ [].
Qed.

(** In every completed construction, with [colored] on or off and with or
    without a tint, the alpha byte of every pixel is 255 and a cell that
    holds Empty is drawn white, (255, 255, 255, 255): the tint is not
    applied to it. *)
Theorem alpha_opaque_and_empty_white
    (sin : float → float) (seedrandom : string → nat → float)
    (entropy : string) (m : Mask) (o : SpriteOptions) (s' : Sprite) (x y : nat) :
  result (construct sin seedrandom entropy m o) = Completed s' →
  x < width s' → y < height s' →
  pixelAt s' x y !! 3 = Some (num 255)
  ∧ (strict_eq (getData s' x y) Empty = true → pixelAt s' x y = white).
Proof.
  intros [_ Hrun]%result_completed Hx Hy.
  apply calculateColors_pixels in Hrun as (Hm & Ho & Hd & Hc).
  set (g := structure (fresh seedrandom entropy m o)) in *.
  assert (HW : width s' = width g) by by apply width_mask.
  assert (HH : height s' = height g) by by apply height_mask.
  destruct (Hc x y) as [Halpha Hwhite]; [lia|lia|done|].
  split.
  - unfold pixelAt, spriteImageData. simpl. rewrite HW. by rewrite Halpha.
  - rewrite (getData_frame s' g) by done. exact Hwhite.
Qed.

Lemma alpha_opaque_and_empty_white_witness :
  ∃ s', result (construct host_sin
                  (draws [0.75; 0.5; 0; 0.5; 0.5; 0.5; 0.25; 0.5]%float) ""
                  border_pair colored_options) = Completed s'
    ∧ pixelAt s' 1 0 !! 3 = Some (num 255)
    ∧ (strict_eq (getData s' 1 0) Empty = true → pixelAt s' 1 0 = white).
Proof.
  destruct (construct host_sin
              (draws [0.75; 0.5; 0; 0.5; 0.5; 0.5; 0.25; 0.5]%float) ""
              border_pair colored_options) as [c [s'|e]] eqn:Hc.
  - exists s'. split; [reflexivity|].
    assert (Hrun : result (construct host_sin
                  (draws [0.75; 0.5; 0; 0.5; 0.5; 0.5; 0.25; 0.5]%float) ""
                  border_pair colored_options) = Completed s')
      by (rewrite Hc; reflexivity).
    assert (Hm : mask s' = border_pair).
    { destruct (construct_inv _ _ _ _ _ _ Hrun) as (Hm & _ & _ & Hm' & _).
      by rewrite Hm'. }
    apply (alpha_opaque_and_empty_white host_sin
             (draws [0.75; 0.5; 0; 0.5; 0.5; 0.5; 0.25; 0.5]%float) ""
             border_pair colored_options s' 1 0 Hrun).
    + unfold width. rewrite Hm. vm_compute. lia.
    + unfold height. rewrite Hm. vm_compute. lia.
  - exfalso. apply (f_equal result) in Hc. vm_compute in Hc. discriminate.
Defined.

(** With [colored] off and a tint, a cell that holds Empty is white, a
    cell that holds AlwaysBorder has the colour bytes [0 * tint] and every
    other cell the colour bytes [255 * tint]; the alpha byte is 255, not
    scaled by the tint. *)
Theorem tinted_plain_pixels
    (sin : float → float) (seedrandom : string → nat → float)
    (entropy : string) (m : Mask) (o : SpriteOptions) (t : RGB)
    (s' : Sprite) (x y : nat) :
  truthy (colored o) = false → tint o = Some t →
  result (construct sin seedrandom entropy m o) = Completed s' →
  x < width s' → y < height s' →
  pixelAt s' x y
  = if strict_eq (getData s' x y) Empty then white
    else if strict_eq (getData s' x y) AlwaysBorder
    then [num (0 * r t); num (0 * g t); num (0 * b t); num 255]
    else [num (255 * r t); num (255 * g t); num (255 * b t); num 255].
Proof.
  intros Hplain Htint Hrun Hx Hy.
  destruct (construct_plain _ _ _ _ _ _ Hplain Hrun) as (_ & _ & _ & Hpix).
  destruct (Hpix x y Hx Hy) as [_ ->]. rewrite Htint. unfold plainPixel.
  destruct (strict_eq _ Empty); [reflexivity|].
  destruct (strict_eq _ AlwaysBorder); reflexivity.
Qed.

Lemma tinted_plain_pixels_witness :
  ∃ s', result (construct host_sin (draws [0.75; 0.25]%float) "" body_mask
                  tinted_options) = Completed s'
    ∧ pixelAt s' 1 0
      = if strict_eq (getData s' 1 0) Empty then white
        else if strict_eq (getData s' 1 0) AlwaysBorder
        then [num (0 * 0.5); num (0 * 0.25); num (0 * 1); num 255]
        else [num (255 * 0.5); num (255 * 0.25); num (255 * 1); num 255].
Proof.
  destruct (construct host_sin (draws [0.75; 0.25]%float) "" body_mask
              tinted_options) as [c [s'|e]] eqn:Hc.
  - exists s'. split; [reflexivity|].
    assert (Hrun : result (construct host_sin (draws [0.75; 0.25]%float) ""
                             body_mask tinted_options) = Completed s')
      by (rewrite Hc; reflexivity).
    assert (Hm : mask s' = body_mask).
    { destruct (construct_inv _ _ _ _ _ _ Hrun) as (Hm & _ & _ & Hm' & _).
      by rewrite Hm'. }
    apply (tinted_plain_pixels host_sin (draws [0.75; 0.25]%float) "" body_mask
             tinted_options {| r := 0.5; g := 0.25; b := 1 |} s' 1 0).
    + reflexivity.
    + reflexivity.
    + exact Hrun.
    + unfold width. rewrite Hm. vm_compute. lia.
    + unfold height. rewrite Hm. vm_compute. lia.
  - exfalso. apply (f_equal result) in Hc. vm_compute in Hc. discriminate.
Defined.


(** ** The size of the grid *)

Lemma Array_fill_lookup n v k : is_Some (Array_fill n v !! k) ↔ k < n.
Proof.
  unfold Array_fill. induction n as [|n IH]; simpl.
  - rewrite lookup_empty. split; [by intros []|lia].
  - unfold write. rewrite lookup_insert_is_Some, IH. destruct (decide (n = k)); lia.
Qed.

Lemma setData_wf s x y v :
  x < width s → y < height s → grid_wf s → grid_wf (setData s x y v).
Proof.
  intros Hx Hy Hwf k. unfold setData, write. simpl.
  change (width (with_data s _)) with (width s).
  change (height (with_data s _)) with (height s).
  rewrite lookup_insert_is_Some, (Hwf k).
  assert (y * width s + x < width s * height s) by nia.
  destruct (decide (y * width s + x = k)); lia.
Qed.

Lemma for_loop_keeps m n (body : nat → Sprite → Sprite) :
  (∀ i, i < n → keeps_grid m (body i)) → keeps_grid m (for_loop n body).
Proof.
  intros Hbody t Hm.
  apply (for_loop_ind (fun _ t' => mask t' = m ∧ (grid_wf t → grid_wf t'))); [done|].
  intros i t' Hi [Hm' Hwf]. destruct (Hbody i Hi t' Hm') as [Hm'' Hwf'].
  split; [done|]. auto.
Qed.

Lemma setData_keeps m (x y : Sprite → nat) (v : Sprite → value) :
  (∀ t, mask t = m → x t < width t ∧ y t < height t) →
  keeps_grid m (fun t => setData t (x t) (y t) (v t)).
Proof.
  intros Hxy t Hm. split; [done|]. destruct (Hxy t Hm). by apply setData_wf.
Qed.

Lemma sample_data x y s : data (sample x y s).2 = data s.
Proof.
  unfold sample, defaultSample.
  destruct (randomSampleCallback (spriteOpts s)); [done|].
  destruct (strict_eq _ RandomlyEmptyBody); [done|].
  by destruct (strict_eq _ RandomlyBorderBody).
Qed.

Lemma border_keeps m c (x y : nat) :
  (c = true → x < effectiveWidth m ∧ y < effectiveHeight m) →
  keeps_grid m (fun t => border t c x y t).
Proof.
  intros Hc t Hm. unfold border.
  destruct c; simpl; [|done].
  destruct (strict_eq _ Empty); [|done].
  split; [done|]. destruct (Hc eq_refl).
  apply setData_wf; unfold width, height; by rewrite Hm.
Qed.

Lemma edgeCell_keeps m x y :
  x < effectiveWidth m → y < effectiveHeight m →
  keeps_grid m (edgeCell (effectiveHeight m) (effectiveWidth m) x y).
Proof.
  intros Hx Hy t Hm. rewrite edgeCell_border.
  destruct (_ || _); [done|]. cbv zeta.
  destruct (border_keeps m (1 <=? y) x (y - 1)
              ltac:(intros Hc%Nat.leb_le; lia) t Hm) as [M1 W1].
  set (t1 := border t (1 <=? y) x (y - 1) t) in *.
  destruct (border_keeps m (y + 1 <? effectiveHeight m) x (y + 1)
              ltac:(intros Hc%Nat.ltb_lt; lia) t1 M1) as [M2 W2].
  set (t2 := border t1 _ x (y + 1) t1) in *.
  destruct (border_keeps m (1 <=? x) (x - 1) y
              ltac:(intros Hc%Nat.leb_le; lia) t2 M2) as [M3 W3].
  set (t3 := border t2 _ (x - 1) y t2) in *.
  destruct (border_keeps m (x + 1 <? effectiveWidth m) (x + 1) y
              ltac:(intros Hc%Nat.ltb_lt; lia) t3 M3) as [M4 W4].
  split; [done|]. auto.
Qed.

(** Every stage before the colours keeps the mask and the cells of the
    grid. *)
Lemma stages_keep_grid m :
  keeps_grid m applyMask ∧ keeps_grid m generateRandomSample
  ∧ keeps_grid m mirrorX ∧ keeps_grid m mirrorY ∧ keeps_grid m generateEdges.
Proof.
  assert (Hmw : Mask.width m ≤ effectiveWidth m)
    by (unfold effectiveWidth; destruct (Mask.mirrorX m); lia).
  assert (Hmh : Mask.height m ≤ effectiveHeight m)
    by (unfold effectiveHeight; destruct (Mask.mirrorY m); lia).
  pose proof (half_bounds (effectiveWidth m)) as HhW.
  pose proof (half_bounds (effectiveHeight m)) as HhH.
  split; [|split; [|split; [|split]]].
  - intros t Hm. unfold applyMask. rewrite Hm.
    apply for_loop_keeps; [|done]. intros y Hy.
    apply for_loop_keeps. intros x Hx.
    apply (setData_keeps m (fun _ => x) (fun _ => y)).
    intros t' Hm'. unfold width, height. rewrite Hm'.
    fold (effectiveWidth m) (effectiveHeight m). lia.
  - intros t Hm. unfold generateRandomSample.
    replace (width t) with (effectiveWidth m) by (unfold width; by rewrite Hm).
    replace (height t) with (effectiveHeight m) by (unfold height; by rewrite Hm).
    apply for_loop_keeps; [|done]. intros y Hy.
    apply for_loop_keeps. intros x Hx t' Hm'.
    pose proof (sample_frame x y t') as (Hsm & _).
    pose proof (sample_data x y t') as Hsd.
    destruct (sample x y t') as [v t'']. simpl in *.
    split; [congruence|]. intros Hwf.
    apply setData_wf.
    + unfold width. rewrite Hsm, Hm'. by fold (effectiveWidth m).
    + unfold height. rewrite Hsm, Hm'. by fold (effectiveHeight m).
    + intros k. unfold width, height. rewrite Hsd, Hsm. apply Hwf.
  - intros t Hm. unfold mirrorX.
    replace (width t) with (effectiveWidth m) by (unfold width; by rewrite Hm).
    replace (height t) with (effectiveHeight m) by (unfold height; by rewrite Hm).
    apply for_loop_keeps; [|done]. intros y Hy.
    apply for_loop_keeps. intros x Hx.
    apply (setData_keeps m (fun t' => width t' - x - 1) (fun _ => y)
             (fun t' => getData t' x y)).
    intros t' Hm'. unfold width, height. rewrite Hm'.
    fold (effectiveWidth m) (effectiveHeight m). lia.
  - intros t Hm. unfold mirrorY.
    replace (width t) with (effectiveWidth m) by (unfold width; by rewrite Hm).
    replace (height t) with (effectiveHeight m) by (unfold height; by rewrite Hm).
    apply for_loop_keeps; [|done]. intros y Hy.
    apply for_loop_keeps. intros x Hx.
    apply (setData_keeps m (fun _ => x) (fun t' => height t' - y - 1)
             (fun t' => getData t' x y)).
    intros t' Hm'. unfold width, height. rewrite Hm'.
    fold (effectiveWidth m) (effectiveHeight m). lia.
  - intros t Hm. unfold generateEdges.
    replace (width t) with (effectiveWidth m) by (unfold width; by rewrite Hm).
    replace (height t) with (effectiveHeight m) by (unfold height; by rewrite Hm).
    apply for_loop_keeps; [|done]. intros y Hy.
    apply for_loop_keeps. intros x Hx. by apply edgeCell_keeps.
Qed.

(** No stage before the colours writes outside the grid or leaves a hole
    in it: on an object whose grid holds exactly the cells of its
    [width * height] indices, each of the five stages ends with such a
    grid. *)
Theorem stages_stay_in_grid (s : Sprite) :
  grid_wf s →
  grid_wf (applyMask s) ∧ grid_wf (generateRandomSample s)
  ∧ grid_wf (mirrorX s) ∧ grid_wf (mirrorY s) ∧ grid_wf (generateEdges s).
Proof.
  intros Hwf.
  destruct (stages_keep_grid (mask s)) as (H1 & H2 & H3 & H4 & H5).
  split; [|split; [|split; [|split]]].
  - by apply (H1 s).
  - by apply (H2 s).
  - by apply (H3 s).
  - by apply (H4 s).
  - by apply (H5 s).
Qed.

Lemma blank_wf m : grid_wf (blank m).
Proof. intros k. apply Array_fill_lookup. Qed.

Lemma stages_stay_in_grid_witness :
  grid_wf (applyMask (blank body_mask))
  ∧ grid_wf (generateRandomSample (blank body_mask))
  ∧ grid_wf (mirrorX (blank body_mask)) ∧ grid_wf (mirrorY (blank body_mask))
  ∧ grid_wf (generateEdges (blank body_mask)).
Proof.
  apply (stages_stay_in_grid (blank body_mask)).
  intros k. unfold blank, width, height. simpl.
  rewrite Array_fill_lookup. vm_compute. split; lia.
Defined.

Lemma structure_wf s : grid_wf s → mask (structure s) = mask s ∧ grid_wf (structure s).
Proof.
  intros Hwf. destruct (stages_keep_grid (mask s)) as (H1 & H2 & H3 & H4 & H5).
  unfold structure. cbv zeta.
  destruct (H1 s eq_refl) as [M1 W1].
  destruct (H2 (applyMask s) M1) as [M2 W2].
  set (s2 := generateRandomSample (applyMask s)) in *.
  set (s3 := if Mask.mirrorX (mask s2) then mirrorX s2 else s2).
  assert (M3 : mask s3 = mask s ∧ grid_wf s3).
  { unfold s3. destruct (Mask.mirrorX (mask s2)); [|by auto].
    destruct (H3 s2 M2). by auto. }
  destruct M3 as [M3 W3].
  set (s4 := if Mask.mirrorY (mask s3) then mirrorY s3 else s3).
  assert (M4 : mask s4 = mask s ∧ grid_wf s4).
  { unfold s4. destruct (Mask.mirrorY (mask s3)); [|by auto].
    destruct (H4 s3 M3). by auto. }
  destruct M4 as [M4 W4].
  destruct (H5 s4 M4). by auto.
Qed.

(** In a completed construction the structural grid holds exactly
    [effectiveWidth * effectiveHeight] cells, at the indices below that
    number: its length has not changed since [Array(...).fill(...)]. *)
Theorem constructed_grid_size
    (sin : float → float) (seedrandom : string → nat → float)
    (entropy : string) (m : Mask) (o : SpriteOptions) (s' : Sprite) :
  result (construct sin seedrandom entropy m o) = Completed s' →
  (∀ k, is_Some (data s' !! k) ↔ k < width s' * height s')
  ∧ array_length (data s') = width s' * height s'.
Proof.
  intros [Hfits Hrun]%result_completed.
  apply calculateColors_spec in Hrun as (Hm & _ & Hd & _).
  destruct (structure_wf (fresh seedrandom entropy m o)) as [Hmg Hwf].
  { intros k. apply Array_fill_lookup. }
  set (g := structure (fresh seedrandom entropy m o)) in *.
  assert (Hwf' : ∀ k, is_Some (data s' !! k) ↔ k < width s' * height s').
  { intros k. rewrite Hd, (width_mask s' g), (height_mask s' g) by done. apply Hwf. }
  assert (Hsize : width s' * height s' = effectiveWidth m * effectiveHeight m).
  { unfold width, height. by rewrite Hm, Hmg. }
  split; [done|]. apply Nat.le_antisymm.
  - apply array_length_le. intros k. apply Hwf'.
  - destruct (decide (width s' * height s' = 0)) as [->|Hpos]; [lia|].
    assert (Hlast : is_Some (data s' !! (width s' * height s' - 1)))
      by (apply Hwf'; lia).
    apply array_length_lt in Hlast; [lia|]. unfold fits in Hfits. lia.
Qed.

Lemma constructed_grid_size_witness :
  ∃ s', result (construct host_sin (draws [0.75; 0.25]%float) "" body_mask
                  (seeded "mixel")) = Completed s'
    ∧ (∀ k, is_Some (data s' !! k) ↔ k < width s' * height s')
    ∧ array_length (data s') = width s' * height s'.
Proof.
  destruct (construct host_sin (draws [0.75; 0.25]%float) "" body_mask
              (seeded "mixel")) as [c [s'|e]] eqn:Hc.
  - exists s'. split; [reflexivity|].
    apply (constructed_grid_size host_sin (draws [0.75; 0.25]%float) "" body_mask
             (seeded "mixel") s').
    rewrite Hc. reflexivity.
  - exfalso. apply (f_equal result) in Hc. vm_compute in Hc. discriminate.
Defined.

(** ** The constructor, continued *)

(** In every completed construction, with [colored] on or off, the
    structural grid is symmetric along every mirrored axis: the cell in
    column [x] equals the cell in column [effectiveWidth - 1 - x] when
    [mirrorX] is set, and likewise for the rows when [mirrorY] is set. *)
Theorem grid_mirror_symmetry
    (sin : float → float) (seedrandom : string → nat → float)
    (entropy : string) (m : Mask) (o : SpriteOptions) (s' : Sprite) :
  result (construct sin seedrandom entropy m o) = Completed s' →
  (Mask.mirrorX m = true →
   ∀ x y, x < width s' → y < height s' →
     getData s' (width s' - 1 - x) y = getData s' x y)
  ∧ (Mask.mirrorY m = true →
     ∀ x y, x < width s' → y < height s' →
       getData s' x (height s' - 1 - y) = getData s' x y).
Proof.
  intros Hrun.
  destruct (construct_inv _ _ _ _ _ _ Hrun) as (Hmg & _ & _ & Hm & _ & Hd & _).
  destruct (structure_spec (fresh seedrandom entropy m o))
    as (Hmf & _ & _ & Hsx & Hsy).
  set (g := structure (fresh seedrandom entropy m o)) in *.
  change (mask (fresh seedrandom entropy m o)) with m in Hsx, Hsy.
  assert (HW : width (fresh seedrandom entropy m o) = width s').
  { apply width_mask. simpl. congruence. }
  assert (HH : height (fresh seedrandom entropy m o) = height s').
  { apply height_mask. simpl. congruence. }
  rewrite HW, HH in Hsx, Hsy.
  split.
  - intros Hmx x y Hx Hy. rewrite !(getData_frame s' g) by done. by apply Hsx.
  - intros Hmy x y Hx Hy. rewrite !(getData_frame s' g) by done. by apply Hsy.
Qed.

Lemma grid_mirror_symmetry_witness :
  ∃ s', result (construct host_sin
                  (draws [0.75; 0.5; 0; 0.5; 0.5; 0.5; 0.25; 0.5]%float) ""
                  border_pair colored_options) = Completed s'
    ∧ (Mask.mirrorX border_pair = true →
       ∀ x y, x < width s' → y < height s' →
         getData s' (width s' - 1 - x) y = getData s' x y)
    ∧ (Mask.mirrorY border_pair = true →
       ∀ x y, x < width s' → y < height s' →
         getData s' x (height s' - 1 - y) = getData s' x y).
Proof.
  destruct (construct host_sin
              (draws [0.75; 0.5; 0; 0.5; 0.5; 0.5; 0.25; 0.5]%float) ""
              border_pair colored_options) as [c [s'|e]] eqn:Hc.
  - exists s'. split; [reflexivity|].
    apply (grid_mirror_symmetry host_sin
             (draws [0.75; 0.5; 0; 0.5; 0.5; 0.5; 0.25; 0.5]%float) ""
             border_pair colored_options s').
    rewrite Hc. reflexivity.
  - exfalso. apply (f_equal result) in Hc. vm_compute in Hc. discriminate.
Defined.

(** No construction over a mask whose width and height are whole numbers
    (the masks of this development) logs a warning: the effective length
    of a mirrored axis is then twice a whole number, so the tests
    [this.width % 2] and [this.height % 2] of the constructor never succeed
    together with the mirror flag. *)
Theorem construction_never_warns
    (sin : float → float) (seedrandom : string → nat → float)
    (entropy : string) (m : Mask) (o : SpriteOptions) :
  console (construct sin seedrandom entropy m o) = [].
Proof.
  rewrite console_construct. destruct (mirrored_length_even m) as [Hx Hy].
  destruct (Array _) as [n|e]; [|done].
  destruct (Mask.mirrorX m), (Mask.mirrorY m);
    rewrite ?Hx, ?Hy by done; rewrite ?andb_false_r; reflexivity.
Qed.


(** ** The textual dump *)

Lemma length_append (a c : string) :
  String.length (String.append a c) = String.length a + String.length c.
Proof. induction a as [|ch a IH]; simpl; [done|]. by rewrite IH. Qed.

Lemma border_below_zero f :
  PrimFloat.eqb f AlwaysBorder = true → PrimFloat.leb 0 f = false.
Proof.
  rewrite FloatAxioms.eqb_spec, FloatAxioms.leb_spec.
  assert (H0 : Prim2SF 0 = S754_zero false) by (vm_compute; reflexivity).
  assert (H1 : ∃ m e, Prim2SF AlwaysBorder = S754_finite true m e)
    by (vm_compute; eauto).
  destruct H1 as (m & e & ->). rewrite H0.
  destruct (Prim2SF f) as [[]|[]| |[] ? ?]; cbv [SFeqb SFleb SFcompare]; congruence.
Qed.

Lemma code_not_below_zero f :
  PrimFloat.eqb f Empty = true ∨ PrimFloat.eqb f RandomlyEmptyBody = true
  ∨ PrimFloat.eqb f RandomlyBorderBody = true →
  PrimFloat.leb 0 f = true.
Proof.
  rewrite !FloatAxioms.eqb_spec, FloatAxioms.leb_spec.
  assert (H0 : Prim2SF 0 = S754_zero false) by (vm_compute; reflexivity).
  assert (He : Prim2SF Empty = S754_zero false) by (vm_compute; reflexivity).
  assert (H1 : ∃ m e, Prim2SF RandomlyEmptyBody = S754_finite false m e)
    by (vm_compute; eauto).
  assert (H2 : ∃ m e, Prim2SF RandomlyBorderBody = S754_finite false m e)
    by (vm_compute; eauto).
  destruct H1 as (m1 & e1 & ->), H2 as (m2 & e2 & ->). rewrite H0, He.
  destruct (Prim2SF f) as [[]|[]| |[] ? ?]; cbv [SFeqb SFleb SFcompare];
    intros [?|[?|?]]; congruence.
Qed.

(** The dump has columns of equal width: when every cell of the grid holds
    a structural code and the host writes -1 with two characters and 0, 1
    and 2 with one, every cell takes three characters, so the text has
    [height] lines of [3 * width] characters, each followed by a newline. *)
Theorem toString_fixed_width (Number_toString : float → string) (s : Sprite) :
  (∀ f, PrimFloat.eqb f AlwaysBorder = true →
        String.length (Number_toString f) = 2) →
  (∀ f, PrimFloat.eqb f Empty = true ∨ PrimFloat.eqb f RandomlyEmptyBody = true
        ∨ PrimFloat.eqb f RandomlyBorderBody = true →
        String.length (Number_toString f) = 1) →
  (∀ x y, x < width s → y < height s → isCode (getData s x y) = true) →
  String.length (toString Number_toString s) = height s * (3 * width s + 1).
Proof.
  intros Hneg Hpos Hcodes. unfold toString. cbv zeta.
  assert (Hcell : ∀ x y, x < width s → y < height s →
    String.length
      (if ge_zero (getData s x y)
       then String.append "  " (ToString Number_toString (getData s x y))
       else String.append " " (ToString Number_toString (getData s x y))) = 3).
  { intros x y Hx Hy. specialize (Hcodes x y Hx Hy). unfold isCode in Hcodes.
    destruct (getData s x y) as [|f]; [done|]. simpl in *.
    destruct (PrimFloat.eqb f AlwaysBorder) eqn:Hab.
    - rewrite (border_below_zero f Hab), length_append, (Hneg f Hab). done.
    - simpl in Hcodes.
      assert (Hc : PrimFloat.eqb f Empty = true
                   ∨ PrimFloat.eqb f RandomlyEmptyBody = true
                   ∨ PrimFloat.eqb f RandomlyBorderBody = true).
      { destruct (PrimFloat.eqb f Empty); [by left|].
        destruct (PrimFloat.eqb f RandomlyEmptyBody); [by right; left|].
        right; right. exact Hcodes. }
      rewrite (code_not_below_zero f Hc), length_append, (Hpos f Hc). done. }
  apply (for_loop_ind (fun Y (out : string) =>
           String.length out = Y * (3 * width s + 1))); [done|].
  intros Y out HY Hout. rewrite length_append. simpl.
  assert (Hrow : String.length (for_loop (width s) (fun x output =>
      String.append output
        (if ge_zero (getData s x Y)
         then String.append "  " (ToString Number_toString (getData s x Y))
         else String.append " " (ToString Number_toString (getData s x Y)))) out)
    = String.length out + 3 * width s).
  { apply (for_loop_ind (fun X (o : string) =>
             String.length o = String.length out + 3 * X)); [lia|].
    intros X o HX Ho. rewrite length_append, Ho, Hcell by done. lia. }
  rewrite Hrow, Hout. lia.
Qed.

Lemma toString_fixed_width_witness :
  String.length (toString code_text strip_sprite)
  = height strip_sprite * (3 * width strip_sprite + 1).
Proof.
  apply (toString_fixed_width code_text strip_sprite).
  - intros f Hab. unfold code_text.
    pose proof (empty_not_border (num f)) as H0.
    pose proof (body_code_not_border (num f)) as H1. simpl in H0, H1.
    destruct (PrimFloat.eqb f Empty); [by specialize (H0 eq_refl); congruence|].
    destruct (PrimFloat.eqb f RandomlyEmptyBody);
      [by specialize (H1 (or_introl eq_refl)); congruence|].
    destruct (PrimFloat.eqb f RandomlyBorderBody);
      [by specialize (H1 (or_intror eq_refl)); congruence|].
    reflexivity.
  - intros f Hc. unfold code_text.
    destruct (PrimFloat.eqb f Empty); [reflexivity|].
    destruct (PrimFloat.eqb f RandomlyEmptyBody); [reflexivity|].
    destruct (PrimFloat.eqb f RandomlyBorderBody); [reflexivity|].
    destruct Hc as [?|[?|?]]; discriminate.
  - intros x y Hx Hy.
    change (width strip_sprite) with 3 in Hx.
    change (height strip_sprite) with 1 in Hy.
    assert (y = 0) as -> by lia.
    assert (x = 0 ∨ x = 1 ∨ x = 2) as [->|[->| ->]] by lia; vm_compute; reflexivity.
Defined.

(** ** The size of the grid, continued *)


